(** * Mizan: measurement and normalization engine

    A shallow embedding of the pure core of the Mizan repository
    (letter counting, Abjad values, verse locations, text normalization,
    clitic-aware entity matching and the integrity guard), together with
    the properties its specification states about it.

    Python [str] values are sequences of Unicode code points: a text is a
    [list N], one code point per element.  Python [int] is [Z]. *)

From Stdlib Require Import ZArith NArith Lia List String Ascii.
From Stdlib Require Import Sorting.Permutation Sorting.Sorted Znumtheory.
From stdpp Require Import base gmap list strings sorting.
From Equations Require Import Equations.

Abbreviation text := (list N).

(** ** Python helpers *)

(** A call either returns or raises. *)
Inductive result (E A : Type) : Type :=
  | Ok (a : A)
  | Raise (e : E).
Arguments Ok {E A} a.
Arguments Raise {E A} e.

(** [s.replace(old, new)] where [old] is a string of one code point. *)
Definition str_replace (s : text) (old : N) (new : text) : text :=
  s ≫= (λ c, if (c =? old)%N then new else [c]).

(** [s >= t] on Python strings: lexicographic order on code points. *)
Definition str_ge (s t : string) : bool := Stdlib.Strings.String.leb t s.

(** Code points [0 .. n-1], used to settle facts about the Arabic block by
    enumeration. *)
Definition code_points_below (n : nat) : list N := N.of_nat <$> seq 0 n.

(** * infrastructure/text/normalizer.py *)

Module Normalizer.

(** domain/enums/normalization_level.py: a [StrEnum]; [value] is the
    member's string. *)
Inductive NormalizationLevel :=
  | NONE | TASHKEEL_REMOVED | HAMZA_UNIFIED | ALIF_UNIFIED | YA_UNIFIED | FULL.

Definition value (l : NormalizationLevel) : string :=
  match l with
  | NONE => "none"
  | TASHKEEL_REMOVED => "tashkeel_removed"
  | HAMZA_UNIFIED => "hamza_unified"
  | ALIF_UNIFIED => "alif_unified"
  | YA_UNIFIED => "ya_unified"
  | FULL => "full"
  end.

#[global] Instance NormalizationLevel_eq_dec : EqDecision NormalizationLevel.
Proof. solve_decision. Defined.

Definition all_levels : list NormalizationLevel :=
  [NONE; TASHKEEL_REMOVED; HAMZA_UNIFIED; ALIF_UNIFIED; YA_UNIFIED; FULL].

Definition TASHKEEL : gset N := list_to_set
  [ 0x064B; 0x064C; 0x064D; 0x064E; 0x064F; 0x0650; 0x0651; 0x0652; 0x0653;
    0x0654; 0x0655; 0x0656; 0x0657; 0x0658; 0x065C; 0x065D; 0x065E; 0x0670 ]%N.

(** The three dicts are iterated with [.items()], in insertion order. *)
Definition HAMZA_MAP : list (N * N) :=
  [ (0x0623, 0x0621); (0x0625, 0x0621); (0x0624, 0x0621);
    (0x0626, 0x0621); (0x0622, 0x0621) ]%N.

Definition ALIF_MAP : list (N * N) :=
  [ (0x0622, 0x0627); (0x0623, 0x0627); (0x0625, 0x0627);
    (0x0671, 0x0627); (0x0670, 0x0627) ]%N.

Definition YA_MAP : list (N * N) :=
  [ (0x0649, 0x064A); (0x0626, 0x064A) ]%N.

Definition TATWEEL : N := 0x0640%N.

Definition SMALL_LETTERS : gset N := list_to_set
  [ 0x06E1; 0x06E2; 0x06E3; 0x06E4; 0x06E5; 0x06E6; 0x06E7; 0x06E8; 0x06E9;
    0x06EA; 0x06EB; 0x06EC; 0x06ED ]%N.

Definition WAQF_SIGNS : gset N := list_to_set
  [ 0x06D6; 0x06D7; 0x06D8; 0x06D9; 0x06DA; 0x06DB; 0x06DC; 0x06DD; 0x06DE ]%N.

Definition _remove_tashkeel (t : text) : text :=
  filter (λ c, c ∉ TASHKEEL) t.

(** [for variant, replacement in m.items(): text = text.replace(variant, replacement)] *)
Definition replace_items (m : list (N * N)) (t : text) : text :=
  foldl (λ acc vr, str_replace acc vr.1 [vr.2]) t m.

Definition _unify_hamza (t : text) : text := replace_items HAMZA_MAP t.
Definition _unify_alif (t : text) : text := replace_items ALIF_MAP t.
Definition _unify_ya (t : text) : text := replace_items YA_MAP t.

Definition _full_normalize (t : text) : text :=
  let t := str_replace t TATWEEL [] in
  let t := filter (λ c, c ∉ SMALL_LETTERS) t in
  let t := filter (λ c, c ∉ WAQF_SIGNS) t in
  t.

(** [ArabicNormalizer.normalize].  The guards compare [level.value], a
    string, with the value of another member, as the source does. *)
Definition normalize (t : text) (level : NormalizationLevel) : text :=
  if decide (level = NONE) then t else
  let t := if str_ge (value level) (value TASHKEEL_REMOVED) then _remove_tashkeel t else t in
  let t := if str_ge (value level) (value HAMZA_UNIFIED) then _unify_hamza t else t in
  let t := if str_ge (value level) (value ALIF_UNIFIED) then _unify_alif t else t in
  let t := if str_ge (value level) (value YA_UNIFIED) then _unify_ya t else t in
  let t := if decide (level = FULL) then _full_normalize t else t in
  t.

(** *** The cascade the specification describes

    The position of a level in the order None < DiacriticsRemoved <
    HamzaUnified < AlifUnified < YaUnified < Full, and the normalization
    that applies the step of every level up to the requested one. *)
Definition level_rank (l : NormalizationLevel) : nat :=
  match l with
  | NONE => 0 | TASHKEEL_REMOVED => 1 | HAMZA_UNIFIED => 2
  | ALIF_UNIFIED => 3 | YA_UNIFIED => 4 | FULL => 5
  end.

Definition level_step (l : NormalizationLevel) : text → text :=
  match l with
  | NONE => id
  | TASHKEEL_REMOVED => _remove_tashkeel
  | HAMZA_UNIFIED => _unify_hamza
  | ALIF_UNIFIED => _unify_alif
  | YA_UNIFIED => _unify_ya
  | FULL => _full_normalize
  end.

Definition normalize_cascade (t : text) (level : NormalizationLevel) : text :=
  foldl (λ acc l, if decide (level_rank l ≤ level_rank level) then level_step l acc else acc)
        t all_levels.

(** *** The other entry points of the normalizer *)

Definition remove_tashkeel_only (t : text) : text := _remove_tashkeel t.

Definition strip_non_letters (t : text) : text :=
  let ARABIC_LETTERS : gset N := list_to_set
    ([ 0x627; 0x628; 0x62A; 0x62B; 0x62C; 0x62D; 0x62E; 0x62F; 0x630; 0x631;
       0x632; 0x633; 0x634; 0x635; 0x636; 0x637; 0x638; 0x639; 0x63A; 0x641;
       0x642; 0x643; 0x644; 0x645; 0x646; 0x647; 0x648; 0x64A; 0x621; 0x622;
       0x623; 0x624; 0x625; 0x626; 0x649 ] ++ [ 0x0671 ])%N in
  filter (λ c, c ∈ ARABIC_LETTERS) t.

Definition normalize_for_search (t : text) : text :=
  let t := normalize t FULL in
  let t := str_replace t 0x20%N [] in
  t.

Definition compare_normalized (text1 text2 : text) (level : NormalizationLevel) : bool :=
  bool_decide (normalize text1 level = normalize text2 level).

(** What YA_UNIFIED leaves no trace of, and what FULL leaves no trace of. *)
Definition ya_unified_clean (c : N) : Prop :=
  (c ∉ TASHKEEL) ∧ (c ∉ (HAMZA_MAP ++ ALIF_MAP ++ YA_MAP).*1).

Definition full_clean (c : N) : Prop :=
  c ≠ TATWEEL ∧ (c ∉ SMALL_LETTERS) ∧ (c ∉ WAQF_SIGNS) ∧ (c ∉ ALIF_MAP.*1).

#[global] Instance ya_unified_clean_dec c : Decision (ya_unified_clean c).
Proof. unfold ya_unified_clean. apply _. Defined.

#[global] Instance full_clean_dec c : Decision (full_clean c).
Proof. unfold full_clean. apply _. Defined.

End Normalizer.

(** * domain/services/letter_counter.py *)

Module LetterCounter.
Local Open Scope Z_scope.

(** domain/enums/letter_count_method.py *)
Inductive LetterCountMethod := TRADITIONAL | UTHMANI_FULL | NO_WASLA.

#[global] Instance LetterCountMethod_eq_dec : EqDecision LetterCountMethod.
Proof. solve_decision. Defined.

Definition ARABIC_LETTERS : gset N := list_to_set
  ([ 0x627; 0x628; 0x62A; 0x62B; 0x62C; 0x62D; 0x62E; 0x62F; 0x630; 0x631;
     0x632; 0x633; 0x634; 0x635; 0x636; 0x637; 0x638; 0x639; 0x63A; 0x641;
     0x642; 0x643; 0x644; 0x645; 0x646; 0x647; 0x648; 0x64A ] ++
   [ 0x621; 0x622; 0x623; 0x624; 0x625; 0x626; 0x649 ])%N.

Definition ALIF_WASLA : N := 0x0671%N.
Definition ALIF_KHANJARIYYA : N := 0x0670%N.

Definition COUNTABLE_SPECIAL : gset N :=
  list_to_set [ALIF_WASLA; ALIF_KHANJARIYYA].

(** [d.get(k, dflt)] on a dict written as a literal. *)
Definition dict_get {K V} `{EqDecision K} (d : list (K * V)) (k : K) (dflt : V) : V :=
  match list_find (λ kv, kv.1 = k) d with
  | Some (_, kv) => kv.2
  | None => dflt
  end.

Definition _get_counting_rules (method : LetterCountMethod)
    (wasla_override khanjariyya_override : option bool) : bool * bool :=
  let method_rules :=
    [ (TRADITIONAL, (true, false));
      (UTHMANI_FULL, (true, true));
      (NO_WASLA, (false, false)) ] in
  let '(include_wasla, include_khanjariyya) :=
    dict_get method_rules method (true, false) in
  let include_wasla :=
    match wasla_override with Some b => b | None => include_wasla end in
  let include_khanjariyya :=
    match khanjariyya_override with Some b => b | None => include_khanjariyya end in
  (include_wasla, include_khanjariyya).

(** One turn of the loop of [count_letters]. *)
Definition count_step (include_wasla include_khanjariyya : bool) (count : Z) (char : N) : Z :=
  if decide (char ∈ ARABIC_LETTERS) then count + 1
  else if include_wasla && bool_decide (char = ALIF_WASLA) then count + 1
  else if include_khanjariyya && bool_decide (char = ALIF_KHANJARIYYA) then count + 1
  else count.

Definition count_letters (t : text) (method : LetterCountMethod)
    (count_alif_wasla count_alif_khanjariyya : option bool) : Z :=
  let '(include_wasla, include_khanjariyya) :=
    _get_counting_rules method count_alif_wasla count_alif_khanjariyya in
  foldl (count_step include_wasla include_khanjariyya) 0 t.

(** The dict [count_letters_detailed] returns, one field per key. *)
Record detailed := {
  total : Z;
  base_letters : Z;
  alif_wasla : Z;
  alif_khanjariyya : Z;
  method : LetterCountMethod;
  wasla_included : bool;
  khanjariyya_included : bool;
}.

(** One turn of the loop of [count_letters_detailed] on (base, wasla, khanjariyya). *)
Definition detailed_step (acc : Z * Z * Z) (char : N) : Z * Z * Z :=
  let '(base, wasla, khanjariyya) := acc in
  if decide (char ∈ ARABIC_LETTERS) then (base + 1, wasla, khanjariyya)
  else if decide (char = ALIF_WASLA) then (base, wasla + 1, khanjariyya)
  else if decide (char = ALIF_KHANJARIYYA) then (base, wasla, khanjariyya + 1)
  else acc.

Definition count_letters_detailed (t : text) (m : LetterCountMethod)
    (count_alif_wasla count_alif_khanjariyya : option bool) : detailed :=
  let '(include_wasla, include_khanjariyya) :=
    _get_counting_rules m count_alif_wasla count_alif_khanjariyya in
  let '(base, wasla, khanjariyya) := foldl detailed_step (0, 0, 0) t in
  let total := base in
  let total := if include_wasla then total + wasla else total in
  let total := if include_khanjariyya then total + khanjariyya else total in
  {| total := total;
     base_letters := base;
     alif_wasla := wasla;
     alif_khanjariyya := khanjariyya;
     method := m;
     wasla_included := include_wasla;
     khanjariyya_included := include_khanjariyya |}.

Definition _normalize_letter (char : N) : N :=
  let ALIF_VARIANTS : gset N :=
    list_to_set [0x622; 0x623; 0x625; 0x627; ALIF_WASLA; ALIF_KHANJARIYYA]%N in
  if decide (char ∈ ALIF_VARIANTS) then 0x627%N else
  let YA_VARIANTS : gset N := list_to_set [0x64A; 0x649; 0x626]%N in
  if decide (char ∈ YA_VARIANTS) then 0x64A%N else
  char.

(** One turn of the loop of [get_letter_frequency]; the keys of [freq] are
    strings of one code point. *)
Definition frequency_step (normalize_variants : bool) (freq : gmap N Z) (char : N) : gmap N Z :=
  if decide (char ∈ ARABIC_LETTERS ∨ char ∈ COUNTABLE_SPECIAL) then
    let letter := if normalize_variants then _normalize_letter char else char in
    <[letter := default 0 (freq !! letter) + 1]> freq
  else freq.

Definition get_letter_frequency (t : text) (normalize_variants : bool) : gmap N Z :=
  foldl (frequency_step normalize_variants) ∅ t.

(** [sum(freq.values())] *)
Definition sum_values (freq : gmap N Z) : Z :=
  map_fold (λ _ v acc, acc + v) 0 freq.

Definition is_arabic_letter (char : N) : bool :=
  bool_decide (char ∈ ARABIC_LETTERS ∨ char ∈ COUNTABLE_SPECIAL).

Definition extract_letters (t : text) : text :=
  filter (λ char, char ∈ ARABIC_LETTERS ∨ char ∈ COUNTABLE_SPECIAL) t.

(** The characters a count takes in, and the bucket a frequency files a
    character under. *)
Definition counted (include_wasla include_khanjariyya : bool) (char : N) : Prop :=
  char ∈ ARABIC_LETTERS ∨
  (include_wasla = true ∧ char = ALIF_WASLA) ∨
  (include_khanjariyya = true ∧ char = ALIF_KHANJARIYYA).

#[global] Instance counted_dec w k char : Decision (counted w k char).
Proof. unfold counted. apply _. Defined.

Definition bucket (normalize_variants : bool) (char : N) : N :=
  if normalize_variants then _normalize_letter char else char.

(** The total the detailed path builds from its three counters. *)
Definition resolve_total (w k : bool) (acc : Z * Z * Z) : Z :=
  let '(base, wasla, khanjariyya) := acc in
  let total := base in
  let total := if w then total + wasla else total in
  let total := if k then total + khanjariyya else total in
  total.

(** The number of letters of a text that fall in the bucket [k]. *)
Definition in_bucket (nv : bool) (k : N) (char : N) : Prop :=
  (char ∈ ARABIC_LETTERS ∨ char ∈ COUNTABLE_SPECIAL) ∧ bucket nv char = k.

#[global] Instance in_bucket_dec nv k char : Decision (in_bucket nv k char).
Proof. unfold in_bucket. apply _. Defined.

Definition bucket_size (nv : bool) (k : N) (t : text) : Z :=
  Z.of_nat (length (filter (in_bucket nv k) t)).

Definition exact_frequency (nv : bool) (freq : gmap N Z) (t : text) : Prop :=
  ∀ k, freq !! k = if decide (bucket_size nv k t = 0) then None
                   else Some (bucket_size nv k t).

End LetterCounter.

(** * domain/value_objects/abjad_value.py and domain/services/abjad_calculator.py *)

Module AbjadValue.
Local Open Scope Z_scope.

(** domain/enums/abjad_system.py *)
Inductive AbjadSystem := MASHRIQI | MAGHRIBI.

Record t := {
  system : AbjadSystem;
  value : Z;
  letter_breakdown : list (text * Z);
}.

(** The two [ValueError]s of [__post_init__], with the numbers their
    messages show. *)
Inductive error :=
  | NegativeValue (value : Z)
  | BreakdownMismatch (computed_sum value : Z).

(** [sum(v for _, v in self.letter_breakdown)] *)
Definition breakdown_sum (letter_breakdown : list (text * Z)) : Z :=
  foldl (λ acc lv, acc + lv.2) 0 letter_breakdown.

Definition __post_init__ (self : t) : result error unit :=
  if value self <? 0 then Raise (NegativeValue (value self)) else
  let computed_sum := breakdown_sum (letter_breakdown self) in
  if negb (computed_sum =? value self) then
    Raise (BreakdownMismatch computed_sum (value self))
  else Ok ().

(** [AbjadValue(system, value, letter_breakdown)]: the generated
    [__init__] stores the three fields and runs [__post_init__]. *)
Definition new (s : AbjadSystem) (v : Z) (b : list (text * Z)) : result error t :=
  let self := {| system := s; value := v; letter_breakdown := b |} in
  match __post_init__ self with
  | Ok _ => Ok self
  | Raise e => Raise e
  end.

Definition digital_root (self : t) : Z :=
  if value self =? 0 then 0 else 1 + (value self - 1) mod 9.

#[global] Instance AbjadSystem_eq_dec : EqDecision AbjadSystem.
Proof. solve_decision. Defined.

(** [get_breakdown_dict]: the keys are the letters, strings of one code
    point as they stand in the breakdown. *)
Definition get_breakdown_dict (self : t) : gmap text Z :=
  foldl (λ result lv, <[lv.1 := default 0 (result !! lv.1) + lv.2]> result)
        ∅ (letter_breakdown self).

Definition get_letter_count (self : t) : Z :=
  Z.of_nat (length (letter_breakdown self)).

(** [modulo]: Python's [%] takes the sign of the divisor, as [Z.modulo]
    does; the error is the [ValueError] raised on a zero divisor. *)
Definition modulo (self : t) (divisor : Z) : result unit Z :=
  if divisor =? 0 then Raise () else Ok (value self mod divisor).

(** [sum(d.values())] for a dict with values in [int]. *)
Definition dict_total {K} `{Countable K} (d : gmap K Z) : Z :=
  map_fold (λ _ v acc, acc + v) 0 d.

(** The contributions a breakdown lists under one letter. *)
Definition contributions (letter : text) (b : list (text * Z)) : list (text * Z) :=
  filter (λ lv, lv.1 = letter) b.

(** What it is for a dict to be the breakdown dict of a breakdown. *)
Definition exact_breakdown_dict (d : gmap text Z) (b : list (text * Z)) : Prop :=
  dict_total d = breakdown_sum b ∧
  ∀ letter, d !! letter =
            if decide (letter ∈ b.*1) then Some (breakdown_sum (contributions letter b))
            else None.


End AbjadValue.

Module AbjadCalculator.
Local Open Scope Z_scope.

Definition digital_root (value : Z) : Z :=
  if value =? 0 then 0 else 1 + (value - 1) mod 9.


Definition MASHRIQI_VALUES : gmap N Z := list_to_map
  [ (0x627%N, 1); (0x623%N, 1); (0x625%N, 1); (0x622%N, 1); (0x621%N, 1); (0x0671%N, 1);
    (0x628%N, 2); (0x62C%N, 3); (0x62F%N, 4); (0x647%N, 5); (0x648%N, 6);
    (0x632%N, 7); (0x62D%N, 8); (0x637%N, 9);
    (0x64A%N, 10); (0x649%N, 10); (0x626%N, 10);
    (0x643%N, 20); (0x644%N, 30); (0x645%N, 40); (0x646%N, 50); (0x633%N, 60);
    (0x639%N, 70); (0x641%N, 80); (0x635%N, 90);
    (0x642%N, 100); (0x631%N, 200); (0x634%N, 300); (0x62A%N, 400); (0x62B%N, 500);
    (0x62E%N, 600); (0x630%N, 700); (0x636%N, 800); (0x638%N, 900);
    (0x63A%N, 1000) ].

Definition MAGHRIBI_VALUES : gmap N Z := list_to_map
  [ (0x627%N, 1); (0x623%N, 1); (0x625%N, 1); (0x622%N, 1); (0x621%N, 1); (0x0671%N, 1);
    (0x628%N, 2); (0x62C%N, 3); (0x62F%N, 4); (0x647%N, 5); (0x648%N, 6);
    (0x632%N, 7); (0x62D%N, 8); (0x637%N, 9);
    (0x64A%N, 10); (0x649%N, 10); (0x626%N, 10);
    (0x643%N, 20); (0x644%N, 30); (0x645%N, 40); (0x646%N, 50); (0x635%N, 60);
    (0x639%N, 70); (0x641%N, 80); (0x636%N, 90);
    (0x642%N, 100); (0x631%N, 200); (0x633%N, 300); (0x62A%N, 400); (0x62B%N, 500);
    (0x62E%N, 600); (0x630%N, 700); (0x634%N, 800); (0x638%N, 900);
    (0x63A%N, 1000) ].

Definition ALIF_KHANJARIYYA : N := 0x0670%N.

(** [system = system or AbjadSystem.MASHRIQI], then the table of the
    system. *)
Definition values_of (system : option AbjadValue.AbjadSystem) : gmap N Z :=
  let system := default AbjadValue.MASHRIQI system in
  if decide (system = AbjadValue.MASHRIQI) then MASHRIQI_VALUES else MAGHRIBI_VALUES.

(** One turn of the loop of [calculate] on (breakdown, total). *)
Definition calculate_step (values : gmap N Z) (include_alif_khanjariyya : bool)
    (acc : list (text * Z) * Z) (char : N) : list (text * Z) * Z :=
  let '(breakdown, total) := acc in
  if bool_decide (char = ALIF_KHANJARIYYA) && include_alif_khanjariyya then
    let val := 1 in (breakdown ++ [([char], val)], total + val)
  else
    match values !! char with
    | Some val => (breakdown ++ [([char], val)], total + val)
    | None => acc
    end.

Definition calculate (t : text) (system : option AbjadValue.AbjadSystem)
    (include_alif_khanjariyya : bool) : result AbjadValue.error AbjadValue.t :=
  let values := values_of system in
  let '(breakdown, total) :=
    foldl (calculate_step values include_alif_khanjariyya) ([], 0) t in
  AbjadValue.new (default AbjadValue.MASHRIQI system) total breakdown.

Definition calculate_simple (t : text) (system : option AbjadValue.AbjadSystem)
    : result AbjadValue.error Z :=
  match calculate t system true with
  | Ok v => Ok (AbjadValue.value v)
  | Raise e => Raise e
  end.

Definition get_value (letter : N) (system : option AbjadValue.AbjadSystem) : option Z :=
  let values := values_of system in
  if bool_decide (letter = ALIF_KHANJARIYYA) then Some 1
  else values !! letter.

(** [factorize].  The two nested [while] loops run on fuel; [divide_out] is
    the inner one, [while value % d == 0], and [trial_loop] the outer one,
    [while d * d <= value], which hands the inner loop the fuel
    [inner_fuel] at each turn. *)
Fixpoint divide_out (fuel : nat) (d value : Z) (factors : list Z) : option (Z * list Z) :=
  match fuel with
  | O => None
  | S fuel =>
      if value mod d =? 0 then divide_out fuel d (value / d) (factors ++ [d])
      else Some (value, factors)
  end.

Fixpoint trial_loop (inner_fuel fuel : nat) (d value : Z) (factors : list Z)
    : option (Z * list Z) :=
  match fuel with
  | O => None
  | S fuel =>
      if d * d <=? value then
        match divide_out inner_fuel d value factors with
        | Some (value, factors) => trial_loop inner_fuel fuel (d + 1) value factors
        | None => None
        end
      else Some (value, factors)
  end.

Definition factorize (fuel : nat) (value : Z) : option (list Z) :=
  if value <? 2 then Some [] else
  match trial_loop fuel fuel 2 value [] with
  | Some (value, factors) =>
      Some (if value >? 1 then factors ++ [value] else factors)
  | None => None
  end.

(** The entry a character adds to the breakdown, if any, and the entries
    of a whole text. *)
Definition entry (values : gmap N Z) (include_alif_khanjariyya : bool) (char : N)
    : option (text * Z) :=
  if bool_decide (char = ALIF_KHANJARIYYA) && include_alif_khanjariyya then Some ([char], 1)
  else (λ val, ([char], val)) <$> values !! char.

Definition entries (values : gmap N Z) (include_alif_khanjariyya : bool) (t : text)
    : list (text * Z) :=
  omap (entry values include_alif_khanjariyya) t.

(** The product of a list of factors. *)
Definition product (factors : list Z) : Z := foldr Z.mul 1 factors.

(** No number from 2 up to, but not including, [d] divides [value]. *)
Definition sieved (d value : Z) : Prop := ∀ k, 2 ≤ k < d → ¬ (k | value).

(** What [factorize] appends once the loop is over. *)
Definition with_last (factors : list Z) (value : Z) : list Z :=
  if value >? 1 then factors ++ [value] else factors.


End AbjadCalculator.

(** ** Iterative digit summing

    The reference the specification compares [digital_root] with: sum the
    decimal digits, and repeat while more than one digit remains. *)

Module DigitSum.
Local Open Scope Z_scope.

Equations? digit_sum (n : Z) : Z by wf (Z.to_nat n) lt :=
  digit_sum n with decide (n ≤ 0) => {
    | left _ := 0;
    | right _ := n mod 10 + digit_sum (n / 10) }.
Proof.
  assert (n / 10 < n) by (apply Z.div_lt; lia).
  assert (0 ≤ n / 10) by (apply Z.div_pos; lia).
  lia.
Qed.

Equations? iterated_digit_sum (n : Z) : Z by wf (Z.to_nat n) lt :=
  iterated_digit_sum n with decide (n < 10) => {
    | left _ := n;
    | right _ := iterated_digit_sum (digit_sum n) }.
Proof.
  assert (Hlt : ∀ k : nat, ∀ m, Z.to_nat m = k → 10 ≤ m → 0 ≤ digit_sum m < m).
  { induction k as [k IH] using lt_wf_ind. intros m Hk Hm.
    rewrite digit_sum_equation_1. simpl.
    destruct (decide (m ≤ 0)) as [?|?]; [lia|]. simpl.
    assert (Hq : 0 < m / 10 < m) by (split; [apply Z.div_str_pos | apply Z.div_lt]; lia).
    assert (Hr : 0 ≤ m mod 10 < 10) by (apply Z.mod_pos_bound; lia).
    assert (Hm10 : m = 10 * (m / 10) + m mod 10) by (apply Z.div_mod; lia).
    destruct (decide (m / 10 < 10)) as [Hsmall|Hbig].
    - rewrite digit_sum_equation_1. simpl.
      destruct (decide (m / 10 ≤ 0)); [lia|]. simpl.
      rewrite digit_sum_equation_1. simpl.
      destruct (decide (m / 10 / 10 ≤ 0)) as [|Hc]; simpl.
      + assert (0 ≤ (m / 10) mod 10 < 10) by (apply Z.mod_pos_bound; lia).
        assert ((m / 10) mod 10 = m / 10) by (apply Z.mod_small; lia).
        lia.
      + exfalso. apply Hc. rewrite Z.div_small; lia.
    - assert (Hrec : 0 ≤ digit_sum (m / 10) < m / 10).
      { apply (IH (Z.to_nat (m / 10))); lia. }
      lia. }
  specialize (Hlt _ n eq_refl). lia.
Qed.

End DigitSum.

(** * domain/value_objects/verse_location.py *)

Module VerseLocation.
Local Open Scope Z_scope.

Definition MIN_SURAH : Z := 1.
Definition MAX_SURAH : Z := 114.
Definition MIN_VERSE : Z := 1.

Definition MAX_VERSES_PER_SURAH : gmap Z Z := list_to_map
  [ (1, 7); (2, 286); (3, 200); (4, 176); (5, 120); (6, 165); (7, 206); (8, 75); (9, 129); (10, 109);
    (11, 123); (12, 111); (13, 43); (14, 52); (15, 99); (16, 128); (17, 111); (18, 110); (19, 98); (20, 135);
    (21, 112); (22, 78); (23, 118); (24, 64); (25, 77); (26, 227); (27, 93); (28, 88); (29, 69); (30, 60);
    (31, 34); (32, 30); (33, 73); (34, 54); (35, 45); (36, 83); (37, 182); (38, 88); (39, 75); (40, 85);
    (41, 54); (42, 53); (43, 89); (44, 59); (45, 37); (46, 35); (47, 38); (48, 29); (49, 18); (50, 45);
    (51, 60); (52, 49); (53, 62); (54, 55); (55, 78); (56, 96); (57, 29); (58, 22); (59, 24); (60, 13);
    (61, 14); (62, 11); (63, 11); (64, 18); (65, 12); (66, 12); (67, 30); (68, 52); (69, 52); (70, 44);
    (71, 28); (72, 28); (73, 20); (74, 56); (75, 40); (76, 31); (77, 50); (78, 40); (79, 46); (80, 42);
    (81, 29); (82, 19); (83, 36); (84, 25); (85, 22); (86, 17); (87, 19); (88, 26); (89, 30); (90, 20);
    (91, 15); (92, 21); (93, 11); (94, 8); (95, 8); (96, 19); (97, 5); (98, 8); (99, 8); (100, 11);
    (101, 11); (102, 8); (103, 3); (104, 9); (105, 5); (106, 4); (107, 7); (108, 3); (109, 6); (110, 3);
    (111, 5); (112, 4); (113, 5); (114, 6) ].

Record t := {
  surah_number : Z;
  verse_number : Z;
}.

(** The three [ValueError]s of [__post_init__], with the numbers their
    messages show. *)
Inductive error :=
  | InvalidSurah (surah : Z)
  | VerseBelowMin (verse : Z)
  | VerseAboveMax (verse surah max_verses : Z).

Definition __post_init__ (self : t) : result error unit :=
  if negb ((MIN_SURAH <=? surah_number self) && (surah_number self <=? MAX_SURAH)) then
    Raise (InvalidSurah (surah_number self))
  else if verse_number self <? MIN_VERSE then
    Raise (VerseBelowMin (verse_number self))
  else
    match MAX_VERSES_PER_SURAH !! surah_number self with
    | Some max_verses =>
        if verse_number self >? max_verses then
          Raise (VerseAboveMax (verse_number self) (surah_number self) max_verses)
        else Ok ()
    | None => Ok ()
    end.

(** [VerseLocation(surah_number, verse_number)] *)
Definition new (surah verse : Z) : result error t :=
  let self := {| surah_number := surah; verse_number := verse |} in
  match __post_init__ self with
  | Ok _ => Ok self
  | Raise e => Raise e
  end.

Definition is_last_verse (self : t) : bool :=
  let max_verses := default 0 (MAX_VERSES_PER_SURAH !! surah_number self) in
  verse_number self =? max_verses.

(** [next_verse] and [previous_verse] build the neighbour with the
    constructor, which may raise; [Ok None] is Python's [None]. *)
Definition next_verse (self : t) : result error (option t) :=
  let max_verses := default 0 (MAX_VERSES_PER_SURAH !! surah_number self) in
  if verse_number self >=? max_verses then Ok None
  else match new (surah_number self) (verse_number self + 1) with
       | Ok loc => Ok (Some loc)
       | Raise e => Raise e
       end.

Definition previous_verse (self : t) : result error (option t) :=
  if verse_number self <=? MIN_VERSE then Ok None
  else match new (surah_number self) (verse_number self - 1) with
       | Ok loc => Ok (Some loc)
       | Raise e => Raise e
       end.

Definition is_first_verse (self : t) : bool := verse_number self =? MIN_VERSE.

#[global] Instance location_eq_dec : EqDecision t.
Proof. solve_decision. Defined.

(** The comparisons, on two locations ([other] is a VerseLocation). *)
Definition __lt__ (self other : t) : bool :=
  if negb (surah_number self =? surah_number other) then
    surah_number self <? surah_number other
  else verse_number self <? verse_number other.

(** The [__eq__] the dataclass generates: equality of the two fields. *)
Definition __eq__ (self other : t) : bool := bool_decide (self = other).

Definition __le__ (self other : t) : bool := __lt__ self other || __eq__ self other.

(** A location that the constructor accepts. *)
Definition valid (loc : t) : Prop := __post_init__ loc = Ok ().

End VerseLocation.

(** * domain/value_objects/checksum.py *)

Module TextChecksum.

Definition SUPPORTED_ALGORITHMS : gset string :=
  list_to_set ["sha256"; "sha384"; "sha512"; "sha3_256"; "sha3_512"]%string.

Record t := {
  algorithm : string;
  value : string;
}.

#[global] Instance t_eq_dec : EqDecision t.
Proof. solve_decision. Defined.

(** The three [ValueError]s of [__post_init__] and [compute]. *)
Inductive error :=
  | UnsupportedAlgorithm (algorithm : string)
  | EmptyValue
  | NotHex (value : string).

(** [hmac.compare_digest] on two digests.  Digests are ASCII strings, and
    on those the comparison is equality, taken in constant time. *)
Definition compare_digest (a b : string) : bool := bool_decide (a = b).

Section WithInterpreter.
(** [hashlib.new(algorithm)], fed [text.encode("utf-8")], then
    [hexdigest()]. *)
Variable hexdigest : string → text → string.
(** [int(value, 16)]: the number read, or [None] where Python raises
    [ValueError]. *)
Variable int_base16 : string → option Z.

Definition __post_init__ (self : t) : result error unit :=
  if decide (algorithm self ∉ SUPPORTED_ALGORITHMS) then
    Raise (UnsupportedAlgorithm (algorithm self))
  else if decide (value self = ""%string) then Raise EmptyValue
  else match int_base16 (value self) with
       | Some _ => Ok ()
       | None => Raise (NotHex (value self))
       end.

(** [TextChecksum(algorithm=..., value=...)] *)
Definition new (alg val : string) : result error t :=
  let self := {| algorithm := alg; value := val |} in
  match __post_init__ self with
  | Ok _ => Ok self
  | Raise e => Raise e
  end.


Definition matches (self other : t) : bool :=
  if negb (bool_decide (algorithm self = algorithm other)) then false
  else compare_digest (value self) (value other).
End WithInterpreter.

(** [__str__]: the algorithm, a colon, the digest. *)
Definition __str__ (self : t) : string :=
  (algorithm self ++ ":" ++ value self)%string.

(** [s.split(":", 1)]: the string itself when it has no colon, and
    otherwise what stands before the first colon and what stands after. *)
Fixpoint split_colon_once (s : string) : list string :=
  match s with
  | EmptyString => [EmptyString]
  | String c rest =>
      if Ascii.eqb c ":" then [EmptyString; rest]
      else match split_colon_once rest with
           | head :: tail => String c head :: tail
           | [] => []
           end
  end.

(** What [from_string] can raise: its own [ValueError] on a string without
    a colon, or one of the constructor's. *)
Inductive parse_error :=
  | InvalidFormat (checksum_str : string)
  | InvalidChecksum (e : error).

Section WithInterpreterMore.
Variable hexdigest : string → text → string.
Variable int_base16 : string → option Z.

Definition from_string (checksum_str : string) : result parse_error t :=
  let parts := split_colon_once checksum_str in
  match parts with
  | [alg; val] =>
      match new int_base16 alg val with
      | Ok c => Ok c
      | Raise e => Raise (InvalidChecksum e)
      end
  | _ => Raise (InvalidFormat checksum_str)
  end.

End WithInterpreterMore.

End TextChecksum.

(** * infrastructure/integrity/guard.py *)

Module IntegrityGuard.

(** The two settings of infrastructure/config.py the guard reads. *)
Record Settings := {
  expected_quran_checksum : string;
  fail_on_integrity_error : bool;
}.

Record t := {
  _fail_fast : bool;
  _expected_checksum : string;
}.

Definition __init__ (settings : Settings) (fail_fast : option bool) : t :=
  {| _fail_fast :=
       match fail_fast with
       | Some b => b
       | None => fail_on_integrity_error settings
       end;
     _expected_checksum := expected_quran_checksum settings |}.

(** What a call of [verify_text] can raise: the [ValueError]s of
    [TextChecksum.compute], or the guard's own error. *)
Inductive error :=
  | ValueError (e : TextChecksum.error)
  | IntegrityViolationError (expected actual : TextChecksum.t) (context : string).


Section WithInterpreter.
Variable hexdigest : string → text → string.
Variable int_base16 : string → option Z.

End WithInterpreter.

Definition lenient_int_base16 (s : string) : option Z := Some 0%Z.

Section WithInterpreterMore.
Variable hexdigest : string → text → string.
Variable int_base16 : string → option Z.

End WithInterpreterMore.

End IntegrityGuard.

(** * infrastructure/text/entity_matcher.py *)

Module EntityVariantMatcher.

Definition MATCHABLE_PREFIXES : gset text := list_to_set
  [ [0x628; 0x650]; [0x628; 0x640]; [0x628];
    [0x648; 0x64E]; [0x648; 0x640]; [0x648];
    [0x641; 0x64E]; [0x641; 0x640]; [0x641];
    [0x644; 0x650]; [0x644; 0x640]; [0x644];
    [0x643; 0x64E]; [0x643; 0x640]; [0x643];
    [0x623; 0x64E]; [0x623];
    [0x64A; 0x64E; 0x627]; [0x64A; 0x627] ]%N.

Definition COMBINED_PREFIXES : gset text := list_to_set
  [ [0x648; 0x64E; 0x628; 0x650]; [0x648; 0x628];
    [0x641; 0x64E; 0x628; 0x650]; [0x641; 0x628];
    [0x648; 0x64E; 0x644; 0x650]; [0x648; 0x644];
    [0x641; 0x64E; 0x644; 0x650]; [0x641; 0x644];
    [0x648; 0x64E; 0x643; 0x64E]; [0x648; 0x643];
    [0x641; 0x64E; 0x643; 0x64E]; [0x641; 0x643];
    [0x623; 0x64E; 0x628; 0x650]; [0x623; 0x628];
    [0x623; 0x64E; 0x641; 0x64E]; [0x623; 0x641];
    [0x623; 0x64E; 0x648; 0x64E]; [0x623; 0x648] ]%N.

Definition ALL_PREFIXES : gset text := MATCHABLE_PREFIXES ∪ COMBINED_PREFIXES.

Definition _strip_tashkeel (t : text) : text :=
  let TASHKEEL : gset N := list_to_set
    [ 0x064B; 0x064C; 0x064D; 0x064E; 0x064F;
      0x0650; 0x0651; 0x0652; 0x0653; 0x0654;
      0x0655; 0x0670 ]%N in
  filter (λ c, c ∉ TASHKEEL) t.

(** [word.startswith(prefix)] *)
Definition startswith (word prefix : text) : bool :=
  bool_decide (prefix `prefix_of` word).

(** The pairs of forms one prefix adds to the set. *)
Definition add_forms (rest : text) (prefix : text) (forms : gset text) : gset text :=
  let clean_prefix := _strip_tashkeel prefix in
  let forms := forms ∪ {[ clean_prefix ++ rest ]} in
  let forms := forms ∪ {[ prefix ++ rest ]} in
  forms.

Definition _generate_all_forms (_base_word : text) : gset text :=
  let forms : gset text := {[ _base_word ]} in
  let forms := set_fold (add_forms _base_word) forms MATCHABLE_PREFIXES in
  let forms := set_fold (add_forms _base_word) forms COMBINED_PREFIXES in
  let forms :=
    if startswith _base_word [0x627; 0x644]%N || startswith _base_word [0x671; 0x644]%N then
      let base_without_al := drop 2 _base_word in
      foldl (λ forms prefix, add_forms base_without_al prefix forms) forms
        [ [0x644; 0x650; 0x644]; [0x644; 0x644];
          [0x628; 0x650; 0x627; 0x644]; [0x628; 0x627; 0x644];
          [0x648; 0x64E; 0x627; 0x644]; [0x648; 0x627; 0x644];
          [0x641; 0x64E; 0x627; 0x644]; [0x641; 0x627; 0x644];
          [0x643; 0x64E; 0x627; 0x644]; [0x643; 0x627; 0x644] ]%N
    else forms in
  forms.

Record t := {
  _base_word : text;
  _all_forms : gset text;
}.

Definition __init__ (base_word : text) : t :=
  {| _base_word := base_word; _all_forms := _generate_all_forms base_word |}.

Definition matches (self : t) (word : text) : bool :=
  if decide (word ∈ _all_forms self) then true else
  let clean_word := _strip_tashkeel word in
  let clean_forms : gset text := set_map _strip_tashkeel (_all_forms self) in
  bool_decide (clean_word ∈ clean_forms).

(** [sorted(xs, key=key, reverse=True)]: a stable sort, largest key first;
    elements with equal keys keep the order they have in [xs]. *)
Fixpoint insert_reverse {A} (key : A → nat) (x : A) (l : list A) : list A :=
  match l with
  | [] => [x]
  | y :: l' => if (key x <? key y)%nat then y :: insert_reverse key x l' else x :: l
  end.

Definition sorted_reverse {A} (key : A → nat) (xs : list A) : list A :=
  foldr (insert_reverse key) [] xs.

(** The [for prefix in ...] loop of [extract_prefix]. *)
Fixpoint extract_loop (self : t) (word : text) (prefixes : list text) : option (text * text) :=
  match prefixes with
  | [] => None
  | prefix :: prefixes =>
      let clean_prefix := _strip_tashkeel prefix in
      if startswith word prefix || startswith word clean_prefix then
        let actual_prefix := if startswith word prefix then prefix else clean_prefix in
        let remainder := drop (length actual_prefix) word in
        if decide (_strip_tashkeel remainder = _strip_tashkeel (_base_word self)) then
          Some (actual_prefix, remainder)
        else extract_loop self word prefixes
      else extract_loop self word prefixes
  end.

(** [extract_prefix].  [ALL_PREFIXES] is a frozenset of strings, and the
    order in which Python iterates it changes with the hash seed of the
    process: [iteration] is that order, any arrangement of the set. *)
Definition extract_prefix (iteration : list text) (self : t) (word : text) : option (text * text) :=
  if negb (matches self word) then None else
  match extract_loop self word (sorted_reverse length iteration) with
  | Some found => Some found
  | None => if matches self word then Some ([], word) else None
  end.

(** The clitics of the two sets, each with and without its diacritics. *)
Definition clitic_forms : gset text :=
  ALL_PREFIXES ∪ set_map _strip_tashkeel ALL_PREFIXES.


(** A clitic fits a word when it begins the word and what is left is the
    canonical word up to diacritics. *)
Definition fits (base_word word clitic : text) : Prop :=
  clitic `prefix_of` word ∧
  _strip_tashkeel (drop (length clitic) word) = _strip_tashkeel base_word.

(** What the body of the loop does with one prefix. *)
Definition attempt (self : t) (word prefix : text) : option (text * text) :=
  let clean_prefix := _strip_tashkeel prefix in
  if startswith word prefix || startswith word clean_prefix then
    let actual_prefix := if startswith word prefix then prefix else clean_prefix in
    let remainder := drop (length actual_prefix) word in
    if decide (_strip_tashkeel remainder = _strip_tashkeel (_base_word self)) then
      Some (actual_prefix, remainder)
    else None
  else None.

(** Two clitics of which one extends the other by diacritics only. *)
Definition extends_by_tashkeel (short long : text) : Prop :=
  short `prefix_of` long ∧ _strip_tashkeel (drop (length short) long) = [].

#[global] Instance extends_by_tashkeel_dec short long :
  Decision (extends_by_tashkeel short long).
Proof. unfold extends_by_tashkeel. apply _. Defined.

Definition get_all_forms (self : t) : gset text := _all_forms self.

Definition base_word (self : t) : text := _base_word self.

(** The list of prefixes that [_generate_all_forms] goes through for a word
    that begins with the definite article, and the test it makes. *)
Definition ARTICLE_PREFIXES : list text :=
  [ [0x644; 0x650; 0x644]; [0x644; 0x644];
    [0x628; 0x650; 0x627; 0x644]; [0x628; 0x627; 0x644];
    [0x648; 0x64E; 0x627; 0x644]; [0x648; 0x627; 0x644];
    [0x641; 0x64E; 0x627; 0x644]; [0x641; 0x627; 0x644];
    [0x643; 0x64E; 0x627; 0x644]; [0x643; 0x627; 0x644] ]%N.

Definition has_article (base_word : text) : bool :=
  startswith base_word [0x627; 0x644]%N || startswith base_word [0x671; 0x644]%N.

(** A form that a prefix gives of a word: the prefix, with or without its
    diacritics, followed by the word. *)
Definition form_of (rest prefix form : text) : Prop :=
  form = _strip_tashkeel prefix ++ rest ∨ form = prefix ++ rest.

End EntityVariantMatcher.

(** * infrastructure/text/entity_matcher.py, [EntityMatcher] *)

Module EntityMatcher.

(** [_matchers] is a dict from entity names to lists of matchers, built
    and iterated in the order of the [entities] dict: a list of pairs with
    one pair for each name. *)
Record t := {
  _matchers : list (string * list EntityVariantMatcher.t);
}.

Definition __init__ (entities : list (string * list text)) : t :=
  {| _matchers :=
       (λ item : string * list text,
          (item.1, EntityVariantMatcher.__init__ <$> item.2)) <$> entities |}.

(** The two nested loops of [find_entity]; the inner one returns the name
    at the first matcher that matches. *)
Fixpoint find_entity_loop (items : list (string * list EntityVariantMatcher.t))
    (word : text) : option string :=
  match items with
  | [] => None
  | (entity_name, matchers) :: items =>
      if existsb (λ matcher, EntityVariantMatcher.matches matcher word) matchers
      then Some entity_name
      else find_entity_loop items word
  end.

Definition find_entity (self : t) (word : text) : option string :=
  find_entity_loop (_matchers self) word.

(** [self._matchers[entity_name]], when the name is a key. *)
Definition matchers_of (self : t) (entity_name : string)
    : option (list EntityVariantMatcher.t) :=
  match list_find (λ item, item.1 = entity_name) (_matchers self) with
  | Some (_, item) => Some item.2
  | None => None
  end.

Definition get_entity_forms (self : t) (entity_name : string) : gset text :=
  match matchers_of self entity_name with
  | None => ∅
  | Some matchers =>
      foldl (λ forms matcher, forms ∪ EntityVariantMatcher._all_forms matcher) ∅ matchers
  end.

(** Some matcher of the list accepts the word. *)
Definition accepts (matchers : list EntityVariantMatcher.t) (word : text) : Prop :=
  ∃ matcher, matcher ∈ matchers ∧ EntityVariantMatcher.matches matcher word = true.

Definition entity_names (self : t) : list string := (_matchers self).*1.

End EntityMatcher.

(** * domain/services/word_counter.py *)

Module WordCounter.

Definition WORD_SEPARATORS : gset N := list_to_set [ 0x20; 0x00A0; 0x200B ]%N.

Definition NON_WORD_CHARS : gset N := list_to_set
  [ 0x06DD; 0x06DE; 0x06E9;
    0x6D6; 0x6D7; 0x6D8; 0x6D9; 0x6DA; 0x6DB; 0x6DC ]%N.

(** An entry of the decision log: the two f-strings, with what they show. *)
Inductive decision :=
  | Removed (char : N)
  | SplitInto (raw_tokens : nat).

Record WordCountResult := {
  count : Z;
  words : list text;
  methodology : string;
  decisions : list decision;
}.

(** [" ".join(words)] *)
Fixpoint join_space (ws : list text) : text :=
  match ws with
  | [] => []
  | [w] => w
  | w :: ws => w ++ [0x20%N] ++ join_space ws
  end.

Section WithInterpreter.
(** [str.isspace] on a string of one code point. *)
Variable isspace : N → bool.

(** [s.split()]: the maximal runs of characters that are not whitespace;
    [current] is the run being read. *)
Fixpoint split_from (current : text) (s : text) : list text :=
  match s with
  | [] => if decide (current = []) then [] else [current]
  | c :: s =>
      if isspace c then
        if decide (current = []) then split_from [] s
        else current :: split_from [] s
      else split_from (current ++ [c]) s
  end.

Definition split (s : text) : list text := split_from [] s.

(** [s.strip()] *)
Fixpoint lstrip (s : text) : text :=
  match s with
  | [] => []
  | c :: s' => if isspace c then lstrip s' else s
  end.

Definition strip (s : text) : text := reverse (lstrip (reverse (lstrip s))).

(** One turn of the loop over [NON_WORD_CHARS]. *)
Definition clean_step (acc : text * list decision) (char : N) : text * list decision :=
  let '(cleaned, decisions) := acc in
  if decide (char ∈ cleaned) then
    (str_replace cleaned char [0x20%N], decisions ++ [Removed char])
  else acc.

(** One turn of the loop over the raw tokens. *)
Definition keep_word (words : list text) (word : text) : list text :=
  let word := strip word in
  if decide (word = []) then words else words ++ [word].

(** [count_words].  [NON_WORD_CHARS] is a frozenset; [iteration] is the
    order in which Python goes through it. *)
Definition count_words (iteration : list N) (t : text) (include_particles : bool)
    (methodology_note : string) : WordCountResult :=
  let '(cleaned, decisions) := foldl clean_step (t, []) iteration in
  let raw_words := split cleaned in
  let decisions := decisions ++ [SplitInto (length raw_words)] in
  let words := foldl keep_word [] raw_words in
  let methodology := "Whitespace-delimited word counting"%string in
  let methodology :=
    if include_particles
    then (methodology ++ " (particles counted as separate words)")%string
    else (methodology ++ " (attached particles merged with base word)")%string in
  let methodology :=
    if decide (methodology_note = ""%string) then methodology
    else (methodology ++ ". Note: " ++ methodology_note)%string in
  {| count := Z.of_nat (length words);
     words := words;
     methodology := methodology;
     decisions := decisions |}.

(** A token: not empty, and free of whitespace. *)
Definition token (w : text) : Prop := w ≠ [] ∧ Forall (λ c, isspace c = false) w.

Definition count_words_simple (iteration : list N) (t : text) : Z :=
  count (count_words iteration t true "").

Definition split_words (iteration : list N) (t : text) : list text :=
  words (count_words iteration t true "").
End WithInterpreter.

(** The state of the loop of [get_word_positions]: the positions found,
    [current_word_start] and [current_word]. *)
Definition positions_state : Type := list (text * nat * nat) * option nat * text.

(** One turn of the loop of [get_word_positions], on the pair [(i, char)]
    of [enumerate(text)]. *)
Definition positions_step (state : positions_state) (ichar : nat * N) : positions_state :=
  let '(positions, current_word_start, current_word) := state in
  let '(i, char) := ichar in
  if decide (char ∈ WORD_SEPARATORS ∨ char ∈ NON_WORD_CHARS) then
    if decide (current_word = []) then state
    else (positions ++ [(current_word, default 0%nat current_word_start, i)], None, [])
  else
    let current_word_start :=
      match current_word_start with None => Some i | Some _ => current_word_start end in
    (positions, current_word_start, current_word ++ [char]).

Definition get_word_positions (t : text) : list (text * nat * nat) :=
  let '(positions, current_word_start, current_word) :=
    foldl positions_step ([], None, []) (imap (λ i char, (i, char)) t) in
  if decide (current_word = []) then positions
  else positions ++ [(current_word, default 0%nat current_word_start, length t)].

(** A character that ends a word for [get_word_positions]. *)
Definition separates (char : N) : Prop :=
  char ∈ WORD_SEPARATORS ∨ char ∈ NON_WORD_CHARS.

(** An entry [(word, start, end)] that is right about the text: [word] is
    the slice [t[start:end]], it is not empty, and none of its characters
    separates. *)
Definition right_position (t : text) (position : text * nat * nat) : Prop :=
  let '(word, start, stop) := position in
  start < stop ≤ length t ∧
  word = take (stop - start) (drop start t) ∧
  Forall (λ char, ¬ separates char) word.

(** The text with every non-word mark turned into a space. *)
Definition marks_to_spaces (t : text) : text :=
  (λ c, if decide (c ∈ NON_WORD_CHARS) then 0x20%N else c) <$> t.

(** What holds of the state of the loop of [get_word_positions] once it
    has read [seen]. *)
Definition positions_invariant (seen : text) (state : positions_state) : Prop :=
  let '(positions, current_word_start, current_word) := state in
  Forall (right_position seen) positions ∧
  match current_word_start with
  | None => current_word = []
  | Some start =>
      current_word ≠ [] ∧ start + length current_word = length seen ∧
      current_word = drop start seen
  end ∧
  Forall (λ char, ¬ separates char) current_word ∧
  concat positions.*1.*1 ++ current_word = filter (λ char, ¬ separates char) seen.


(** A stand-in for [str.isspace], to run the counter on examples: the
    whitespace of ASCII and the no-break space. *)
Definition ascii_isspace (c : N) : bool :=
  bool_decide (c ∈ [0x09; 0x0A; 0x0B; 0x0C; 0x0D; 0x20; 0xA0]%N).

End WordCounter.

(** * Properties *)

(** ** Helpers on texts *)

Lemma str_replace_app s1 s2 old new :
  str_replace (s1 ++ s2) old new = str_replace s1 old new ++ str_replace s2 old new.
Proof. unfold str_replace. apply bind_app. Qed.

Lemma str_replace_other (c old : N) new : c ≠ old → str_replace [c] old new = [c].
Proof.
  intros Hne. unfold str_replace. cbn.
  destruct (N.eqb_spec c old); [done|]. by rewrite app_nil_r.
Qed.

Lemma elem_of_code_points_below (c : N) (n : nat) :
  (c < N.of_nat n)%N → c ∈ code_points_below n.
Proof.
  intros Hc. unfold code_points_below.
  apply list_elem_of_fmap. exists (N.to_nat c). split.
  - by rewrite N2Nat.id.
  - apply elem_of_seq. lia.
Qed.

(** A code point beyond every member of a table is not in the table. *)
Lemma not_elem_of_table (l : list N) (bound c : N) :
  Forall (λ x, (x < bound)%N) l → (bound ≤ c)%N → c ∉ (list_to_set l : gset N).
Proof.
  intros Hall Hc Hin. apply elem_of_list_to_set in Hin.
  rewrite Forall_forall in Hall. specialize (Hall _ Hin). lia.
Qed.

(** ** TextNormalizer *)

Section NormalizerFacts.
Import Normalizer.

(** What each level does in the source: the guards order the levels by
    the spelling of their names. *)
Lemma normalize_unfold (t : text) (level : NormalizationLevel) :
  normalize t level =
  match level with
  | NONE => t
  | TASHKEEL_REMOVED => _unify_alif (_unify_hamza (_remove_tashkeel t))
  | HAMZA_UNIFIED => _unify_alif (_unify_hamza t)
  | ALIF_UNIFIED => _unify_alif t
  | YA_UNIFIED => _unify_ya (_unify_alif (_unify_hamza (_remove_tashkeel t)))
  | FULL => _full_normalize (_unify_alif t)
  end.
Proof. by destruct level. Qed.

Lemma remove_tashkeel_app t1 t2 :
  _remove_tashkeel (t1 ++ t2) = _remove_tashkeel t1 ++ _remove_tashkeel t2.
Proof. apply filter_app. Qed.

Lemma replace_items_app m t1 t2 :
  replace_items m (t1 ++ t2) = replace_items m t1 ++ replace_items m t2.
Proof.
  unfold replace_items. revert t1 t2.
  induction m as [|[v r] m IH]; intros t1 t2; [done|].
  cbn. by rewrite str_replace_app, IH.
Qed.

Lemma full_normalize_app t1 t2 :
  _full_normalize (t1 ++ t2) = _full_normalize t1 ++ _full_normalize t2.
Proof. unfold _full_normalize. by rewrite str_replace_app, !filter_app. Qed.

(** Every level works code point by code point. *)
Lemma normalize_app t1 t2 level :
  normalize (t1 ++ t2) level = normalize t1 level ++ normalize t2 level.
Proof.
  rewrite !normalize_unfold. unfold _unify_hamza, _unify_alif, _unify_ya.
  destruct level;
    by rewrite ?remove_tashkeel_app, ?replace_items_app, ?full_normalize_app.
Qed.

Lemma remove_tashkeel_far (c : N) : (2048 ≤ c)%N → _remove_tashkeel [c] = [c].
Proof.
  intros Hc. unfold _remove_tashkeel. rewrite filter_cons_True; [done|].
  apply (not_elem_of_table _ 2048); [|done].
  repeat (constructor; [lia|]). constructor.
Qed.

Lemma replace_items_far m (c : N) :
  Forall (λ vr, (vr.1 < 2048)%N) m → (2048 ≤ c)%N → replace_items m [c] = [c].
Proof.
  intros Hm Hc. unfold replace_items.
  induction Hm as [|[v r] m Hv _ IH]; [done|].
  cbn [foldl fst snd]. cbn in Hv. rewrite str_replace_other by lia. apply IH.
Qed.

Lemma full_normalize_far (c : N) : (2048 ≤ c)%N → _full_normalize [c] = [c].
Proof.
  intros Hc. unfold _full_normalize.
  rewrite str_replace_other by (unfold TATWEEL; lia).
  rewrite filter_cons_True.
  2:{ apply (not_elem_of_table _ 2048); [|done].
      repeat (constructor; [lia|]). constructor. }
  rewrite filter_cons_True; [done|].
  apply (not_elem_of_table _ 2048); [|done].
  repeat (constructor; [lia|]). constructor.
Qed.

(** No level touches a code point outside the Arabic block. *)
Lemma normalize_far (c : N) level : (2048 ≤ c)%N → normalize [c] level = [c].
Proof.
  intros Hc. rewrite normalize_unfold.
  assert (Hh : _unify_hamza [c] = [c]).
  { apply replace_items_far; [|done]. repeat (constructor; [cbn; lia|]). constructor. }
  assert (Ha : _unify_alif [c] = [c]).
  { apply replace_items_far; [|done]. repeat (constructor; [cbn; lia|]). constructor. }
  assert (Hy : _unify_ya [c] = [c]).
  { apply replace_items_far; [|done]. repeat (constructor; [cbn; lia|]). constructor. }
  destruct level;
    by rewrite ?remove_tashkeel_far, ?Hh, ?Ha, ?Hy, ?full_normalize_far.
Qed.

(** Inside the block, idempotence is checked code point by code point. *)
Lemma normalize_near_idempotent :
  Forall (λ c, Forall (λ level,
            normalize (normalize [c] level) level = normalize [c] level) all_levels)
         (code_points_below 2048).
Proof. apply (bool_decide_unpack _). by vm_compute. Qed.

Lemma normalize_char_idempotent (c : N) level :
  normalize (normalize [c] level) level = normalize [c] level.
Proof.
  destruct (decide (c < 2048)%N) as [Hnear|Hfar].
  - pose proof normalize_near_idempotent as Hall.
    rewrite Forall_forall in Hall.
    specialize (Hall c (elem_of_code_points_below c 2048 Hnear)).
    rewrite Forall_forall in Hall. apply Hall.
    destruct level; unfold all_levels; set_solver.
  - rewrite !normalize_far by lia. done.
Qed.

(** C3. Normalization is idempotent at every level: normalizing an
    already normalized text at the same level changes nothing. *)
Theorem normalize_idempotent (t : text) (level : NormalizationLevel) :
  normalize (normalize t level) level = normalize t level.
Proof.
  induction t as [|c t IH]; [by destruct level|].
  change (c :: t) with ([c] ++ t).
  rewrite (normalize_app [c] t), normalize_app, IH.
  by rewrite normalize_char_idempotent.
Qed.

(** C1. At level FULL the source leaves the diacritics of "bi" (ba with
    kasra) in place, where the cascade of the specification removes them:
    the level guards compare the names of the levels as strings, and "full"
    sorts before "tashkeel_removed" and "hamza_unified". *)
Theorem normalize_full_keeps_tashkeel :
  normalize [0x628; 0x650]%N FULL = [0x628; 0x650]%N ∧
  normalize_cascade [0x628; 0x650]%N FULL = [0x628]%N.
Proof. split; by vm_compute. Qed.

(** The two agree at the levels whose names happen to sort last or are
    handled apart. *)
Lemma normalize_cascade_agrees (t : text) (level : NormalizationLevel) :
  level = NONE ∨ level = YA_UNIFIED →
  normalize t level = normalize_cascade t level.
Proof. intros [-> | ->]; by rewrite normalize_unfold. Qed.

End NormalizerFacts.

(** ** LetterCounter *)

Section LetterCounterFacts.
Import LetterCounter.
Local Open Scope Z_scope.

Lemma get_counting_rules_defaults :
  _get_counting_rules NO_WASLA None None = (false, false) ∧
  _get_counting_rules TRADITIONAL None None = (true, false) ∧
  _get_counting_rules UTHMANI_FULL None None = (true, true).
Proof. done. Qed.

Lemma get_counting_rules_overridden m (w k : bool) :
  _get_counting_rules m (Some w) (Some k) = (w, k).
Proof. by destruct m. Qed.

(** Switching a special glyph on never lowers a running count. *)
Lemma count_step_mono (w k w' k' : bool) (c c' : Z) (char : N) :
  (w → w') → (k → k') → c ≤ c' →
  count_step w k c char ≤ count_step w' k' c' char.
Proof.
  intros Hw Hk Hc. unfold count_step.
  destruct (decide (char ∈ ARABIC_LETTERS)); [lia|].
  destruct (bool_decide (char = ALIF_WASLA)) eqn:Ew,
           (bool_decide (char = ALIF_KHANJARIYYA)) eqn:Ek,
           w, k, w', k'; cbn in *; try lia; naive_solver.
Qed.

Lemma count_loop_mono (w k w' k' : bool) (t : text) (c c' : Z) :
  (w → w') → (k → k') → c ≤ c' →
  foldl (count_step w k) c t ≤ foldl (count_step w' k') c' t.
Proof.
  intros Hw Hk. revert c c'.
  induction t as [|char t IH]; intros c c' Hc; [done|].
  cbn. apply IH. by apply count_step_mono.
Qed.

(** C7. Letter counts grow with the special glyphs the method includes:
    NO_WASLA, then TRADITIONAL, then UTHMANI_FULL, with no overrides. *)
Theorem count_letters_method_monotone (t : text) :
  count_letters t NO_WASLA None None ≤ count_letters t TRADITIONAL None None ∧
  count_letters t TRADITIONAL None None ≤ count_letters t UTHMANI_FULL None None.
Proof.
  unfold count_letters.
  destruct get_counting_rules_defaults as (-> & -> & ->).
  split; apply count_loop_mono; done.
Qed.

Lemma detailed_step_total (w k : bool) (acc : Z * Z * Z) (char : N) :
  resolve_total w k (detailed_step acc char) =
  count_step w k (resolve_total w k acc) char.
Proof.
  destruct acc as [[base wasla] khanjariyya].
  unfold detailed_step, count_step, resolve_total.
  destruct (decide (char ∈ ARABIC_LETTERS)); [destruct w, k; lia|].
  destruct (decide (char = ALIF_WASLA)) as [->|Hw].
  { rewrite bool_decide_eq_true_2 by done.
    destruct w, k; cbn; rewrite ?bool_decide_eq_false_2 by done; lia. }
  rewrite (bool_decide_eq_false_2 (char = ALIF_WASLA)) by done.
  rewrite andb_false_r.
  destruct (decide (char = ALIF_KHANJARIYYA)) as [->|Hk].
  { rewrite bool_decide_eq_true_2 by done. destruct w, k; cbn; lia. }
  rewrite bool_decide_eq_false_2 by done. by rewrite andb_false_r.
Qed.

Lemma detailed_loop_total (w k : bool) (t : text) (acc : Z * Z * Z) :
  resolve_total w k (foldl detailed_step acc t) =
  foldl (count_step w k) (resolve_total w k acc) t.
Proof.
  revert acc. induction t as [|char t IH]; intros acc; [done|].
  cbn. by rewrite IH, detailed_step_total.
Qed.

(** C10. The total of the detailed count is the plain count, for every
    text, method and pair of overrides. *)
Theorem count_letters_detailed_total (t : text) (m : LetterCountMethod)
    (count_alif_wasla count_alif_khanjariyya : option bool) :
  total (count_letters_detailed t m count_alif_wasla count_alif_khanjariyya) =
  count_letters t m count_alif_wasla count_alif_khanjariyya.
Proof.
  unfold count_letters_detailed, count_letters.
  destruct (_get_counting_rules m count_alif_wasla count_alif_khanjariyya) as [w k].
  pose proof (detailed_loop_total w k t (0, 0, 0)) as Hloop.
  destruct (foldl detailed_step (0, 0, 0) t) as [[base wasla] khanjariyya].
  replace (resolve_total w k (0, 0, 0)) with 0 in Hloop by (by destruct w, k).
  cbn [total]. exact Hloop.
Qed.

Lemma sum_values_empty : sum_values ∅ = 0.
Proof. unfold sum_values. apply map_fold_empty. Qed.

Lemma sum_values_insert_fresh (freq : gmap N Z) (k : N) (v : Z) :
  freq !! k = None → sum_values (<[k:=v]> freq) = sum_values freq + v.
Proof.
  intros Hk. unfold sum_values.
  rewrite map_fold_insert_L; [done| |done]. intros j1 j2 z1 z2 y _ _ _. lia.
Qed.

(** [freq[k] = freq.get(k, 0) + 1] adds one to the sum of the values. *)
Lemma sum_values_bump (freq : gmap N Z) (k : N) :
  sum_values (<[k := default 0 (freq !! k) + 1]> freq) = sum_values freq + 1.
Proof.
  destruct (freq !! k) as [v|] eqn:Hk; cbn.
  - rewrite <- (insert_delete_eq freq).
    rewrite sum_values_insert_fresh by apply lookup_delete_eq.
    rewrite <- (insert_delete_id freq k v Hk) at 2.
    rewrite sum_values_insert_fresh by apply lookup_delete_eq. lia.
  - by rewrite sum_values_insert_fresh.
Qed.

Lemma elem_of_COUNTABLE_SPECIAL (char : N) :
  char ∈ COUNTABLE_SPECIAL ↔ char = ALIF_WASLA ∨ char = ALIF_KHANJARIYYA.
Proof.
  unfold COUNTABLE_SPECIAL.
  rewrite elem_of_list_to_set, !elem_of_cons, elem_of_nil. tauto.
Qed.

Lemma frequency_step_sum (nv : bool) (freq : gmap N Z) (char : N) :
  sum_values (frequency_step nv freq char) =
  count_step true true (sum_values freq) char.
Proof.
  unfold frequency_step, count_step. cbn [andb].
  destruct (decide (char ∈ ARABIC_LETTERS)) as [Hin|Hout].
  { rewrite decide_True by auto. apply sum_values_bump. }
  destruct (decide (char = ALIF_WASLA)) as [Hw|Hw].
  { rewrite decide_True by (right; apply elem_of_COUNTABLE_SPECIAL; auto).
    rewrite bool_decide_eq_true_2 by done. apply sum_values_bump. }
  rewrite (bool_decide_eq_false_2 (char = ALIF_WASLA)) by done.
  destruct (decide (char = ALIF_KHANJARIYYA)) as [Hk|Hk].
  { rewrite decide_True by (right; apply elem_of_COUNTABLE_SPECIAL; auto).
    rewrite bool_decide_eq_true_2 by done. apply sum_values_bump. }
  rewrite bool_decide_eq_false_2 by done.
  rewrite decide_False; [done|].
  rewrite elem_of_COUNTABLE_SPECIAL. tauto.
Qed.

Lemma frequency_loop_sum (nv : bool) (t : text) (freq : gmap N Z) :
  sum_values (foldl (frequency_step nv) freq t) =
  foldl (count_step true true) (sum_values freq) t.
Proof.
  revert freq. induction t as [|char t IH]; intros freq; [done|].
  cbn. by rewrite IH, frequency_step_sum.
Qed.

(** C2. The values of the letter frequency with folded variants add up to
    the letter count taken with both special glyphs included, which is what
    the frequency includes: through the two overrides under any method, or
    through the method UTHMANI_FULL. *)
Theorem letter_frequency_sum (t : text) :
  (∀ m, sum_values (get_letter_frequency t true) =
        count_letters t m (Some true) (Some true)) ∧
  sum_values (get_letter_frequency t true) = count_letters t UTHMANI_FULL None None.
Proof.
  assert (Hsum : sum_values (get_letter_frequency t true) =
                 foldl (count_step true true) 0 t).
  { unfold get_letter_frequency. by rewrite frequency_loop_sum, sum_values_empty. }
  split.
  - intros m. unfold count_letters. by rewrite get_counting_rules_overridden.
  - unfold count_letters.
    by destruct get_counting_rules_defaults as (_ & _ & ->).
Qed.

End LetterCounterFacts.

(** ** AbjadValue and the digital root *)

Section AbjadFacts.
Local Open Scope Z_scope.

Lemma abjad_post_init_spec (self : AbjadValue.t) :
  match AbjadValue.__post_init__ self with
  | Ok _ => 0 ≤ AbjadValue.value self ∧
            AbjadValue.breakdown_sum (AbjadValue.letter_breakdown self) = AbjadValue.value self
  | Raise (AbjadValue.NegativeValue v) => v = AbjadValue.value self ∧ v < 0
  | Raise (AbjadValue.BreakdownMismatch c v) =>
      v = AbjadValue.value self ∧ 0 ≤ v ∧
      c = AbjadValue.breakdown_sum (AbjadValue.letter_breakdown self) ∧ c ≠ v
  end.
Proof.
  unfold AbjadValue.__post_init__.
  destruct (Z.ltb_spec (AbjadValue.value self) 0); [done|].
  destruct (Z.eqb_spec (AbjadValue.breakdown_sum (AbjadValue.letter_breakdown self))
                       (AbjadValue.value self)); cbn; auto.
Qed.

(** C4. A breakdown whose contributions do not add up to the declared
    total makes the construction fail, and whatever the construction
    returns holds exactly the fields it was given, with a breakdown that
    adds up to the total: nothing is corrected on the way. *)
Theorem abjad_value_breakdown_enforced
    (s : AbjadValue.AbjadSystem) (v : Z) (b : list (text * Z)) :
  (AbjadValue.breakdown_sum b ≠ v → ∃ e, AbjadValue.new s v b = Raise e) ∧
  (∀ a, AbjadValue.new s v b = Ok a →
        a = {| AbjadValue.system := s; AbjadValue.value := v;
               AbjadValue.letter_breakdown := b |} ∧
        AbjadValue.breakdown_sum (AbjadValue.letter_breakdown a) = AbjadValue.value a).
Proof.
  unfold AbjadValue.new.
  pose proof (abjad_post_init_spec
    {| AbjadValue.system := s; AbjadValue.value := v;
       AbjadValue.letter_breakdown := b |}) as Hspec.
  destruct (AbjadValue.__post_init__ _) as [[]|e]; cbn in Hspec.
  - split; [intros Hne; by destruct Hspec|].
    intros a [= <-]. cbn. by destruct Hspec.
  - split; [eauto|]. intros a Ha. discriminate.
Qed.

Import DigitSum.

Lemma digit_sum_unfold (n : Z) :
  digit_sum n = if decide (n ≤ 0) then 0 else n mod 10 + digit_sum (n / 10).
Proof. rewrite digit_sum_equation_1. cbn. by destruct (decide (n ≤ 0)). Qed.

Lemma iterated_digit_sum_unfold (n : Z) :
  iterated_digit_sum n = if decide (n < 10) then n else iterated_digit_sum (digit_sum n).
Proof. rewrite iterated_digit_sum_equation_1. cbn. by destruct (decide (n < 10)). Qed.

(** The digit sum keeps the residue modulo 9, stays positive on a positive
    number and is smaller than a number of two digits or more. *)
Lemma digit_sum_spec (n : Z) :
  0 ≤ n →
  0 ≤ digit_sum n ≤ n ∧ digit_sum n mod 9 = n mod 9 ∧
  (0 < n → 0 < digit_sum n) ∧ (10 ≤ n → digit_sum n < n).
Proof.
  revert n. apply (Zlt_0_ind (λ n,
    0 ≤ digit_sum n ≤ n ∧ digit_sum n mod 9 = n mod 9 ∧
    (0 < n → 0 < digit_sum n) ∧ (10 ≤ n → digit_sum n < n))).
  intros n IH Hn0. rewrite digit_sum_unfold.
  destruct (decide (n ≤ 0)) as [Hz|Hpos].
  { assert (n = 0) as -> by lia. split; [lia|]. split; [done|]. split; lia. }
  assert (Hq : 0 ≤ n / 10 < n) by (split; [apply Z.div_pos | apply Z.div_lt]; lia).
  destruct (IH (n / 10) Hq) as (Hb & Hmod & Hp & _).
  assert (Hr : 0 ≤ n mod 10 < 10) by (apply Z.mod_pos_bound; lia).
  assert (Hn : n = 10 * (n / 10) + n mod 10) by (apply Z.div_mod; lia).
  set (q := n / 10) in *. set (r := n mod 10) in *. set (d := digit_sum q) in *.
  clearbody q r d. clear IH.
  split; [lia|]. split; [|split; [|lia]].
  - subst n. clear Hp. Z.div_mod_to_equations. lia.
  - intros _. destruct (decide (q = 0)) as [->|]; [lia|].
    assert (0 < d) by (apply Hp; lia). lia.
Qed.

Lemma iterated_digit_sum_spec (n : Z) :
  0 ≤ n →
  0 ≤ iterated_digit_sum n < 10 ∧ iterated_digit_sum n mod 9 = n mod 9 ∧
  (0 < n → 0 < iterated_digit_sum n).
Proof.
  revert n. apply (Zlt_0_ind (λ n,
    0 ≤ iterated_digit_sum n < 10 ∧ iterated_digit_sum n mod 9 = n mod 9 ∧
    (0 < n → 0 < iterated_digit_sum n))).
  intros n IH Hn0. rewrite iterated_digit_sum_unfold.
  destruct (decide (n < 10)) as [Hsmall|Hbig]; [split; [lia|]; split; [done|lia]|].
  destruct (digit_sum_spec n Hn0) as (Hb & Hmod & Hp & Hlt).
  destruct (IH (digit_sum n)) as (Hb' & Hmod' & Hp'); [lia|].
  split; [lia|]. split; [lia|].
  intros _. apply Hp', Hp. lia.
Qed.

(** C8. For every n >= 0 the closed form of the digital root, in the
    calculator and in the value object alike, is what summing the decimal
    digits again and again gives once a single digit is left. *)
Theorem digital_root_iterated_digit_sum (n : Z) :
  0 ≤ n →
  AbjadCalculator.digital_root n = iterated_digit_sum n ∧
  (∀ a, AbjadValue.value a = n → AbjadValue.digital_root a = iterated_digit_sum n).
Proof.
  intros Hn0.
  assert (Hroot : (if n =? 0 then 0 else 1 + (n - 1) mod 9) = iterated_digit_sum n).
  { destruct (iterated_digit_sum_spec n Hn0) as (Hb & Hmod & Hp).
    destruct (Z.eqb_spec n 0) as [->|Hne].
    - rewrite iterated_digit_sum_unfold in *. by destruct (decide (0 < 10)).
    - assert (0 < iterated_digit_sum n) by (apply Hp; lia).
      set (r := iterated_digit_sum n) in *. clearbody r.
      Z.div_mod_to_equations. lia. }
  split; [exact Hroot|].
  intros a Ha. unfold AbjadValue.digital_root. by rewrite Ha.
Qed.

End AbjadFacts.

(** ** VerseLocation *)

Section VerseLocationFacts.
Import VerseLocation.
Local Open Scope Z_scope.

(** The table has an entry for each of the 114 surahs, and for no other
    number. *)
Lemma max_verses_domain (surah : Z) :
  is_Some (MAX_VERSES_PER_SURAH !! surah) ↔ 1 ≤ surah ≤ 114.
Proof.
  split.
  - intros Hsome. apply elem_of_dom in Hsome.
    assert (Hall : set_Forall (λ s, 1 ≤ s ≤ 114) (dom MAX_VERSES_PER_SURAH)).
    { apply (bool_decide_unpack _). by vm_compute. }
    by apply Hall.
  - intros Hrange.
    assert (Hall : Forall (λ s, is_Some (MAX_VERSES_PER_SURAH !! s))
                          ((λ i, Z.of_nat i + 1) <$> seq 0 114)).
    { apply (bool_decide_unpack _). by vm_compute. }
    rewrite Forall_forall in Hall. apply Hall.
    apply list_elem_of_fmap. exists (Z.to_nat (surah - 1)).
    split; [lia|]. apply elem_of_seq. lia.
Qed.

Lemma verse_location_post_init_spec (self : t) :
  match __post_init__ self with
  | Ok _ =>
      1 ≤ surah_number self ≤ 114 ∧ 1 ≤ verse_number self ∧
      ∀ m, MAX_VERSES_PER_SURAH !! surah_number self = Some m → verse_number self ≤ m
  | Raise (InvalidSurah _) => ¬ (1 ≤ surah_number self ≤ 114)
  | Raise (VerseBelowMin _) => verse_number self < 1
  | Raise (VerseAboveMax _ _ m) =>
      MAX_VERSES_PER_SURAH !! surah_number self = Some m ∧ m < verse_number self
  end.
Proof.
  unfold __post_init__, MIN_SURAH, MAX_SURAH, MIN_VERSE.
  generalize (MAX_VERSES_PER_SURAH !! surah_number self). intros entry.
  destruct (Z.leb_spec 1 (surah_number self)),
           (Z.leb_spec (surah_number self) 114); cbn; try lia.
  destruct (Z.ltb_spec (verse_number self) 1); [done|].
  destruct entry as [m|].
  - destruct (Z.gtb_spec (verse_number self) m); [done|].
    split; [lia|]. split; [lia|]. intros ? [= <-]. lia.
  - split; [lia|]. split; [lia|]. intros ? [=].
Qed.

(** C5. A surah number outside 1..114, a verse number below 1 or a verse
    number above the maximum of its surah makes the construction fail;
    VerseLocation(1, 8) fails, VerseLocation(1, 7) succeeds and is the
    last verse of its surah. *)
Theorem verse_location_validated :
  (∀ surah verse,
     (surah < 1 ∨ 114 < surah ∨ verse < 1 ∨
      ∃ m, MAX_VERSES_PER_SURAH !! surah = Some m ∧ m < verse) →
     ∃ e, new surah verse = Raise e) ∧
  (∃ e, new 1 8 = Raise e) ∧
  (∃ loc, new 1 7 = Ok loc ∧ is_last_verse loc = true).
Proof.
  split; [|split].
  - intros surah verse Hbad. unfold new.
    pose proof (verse_location_post_init_spec
      {| surah_number := surah; verse_number := verse |}) as Hspec.
    destruct (__post_init__ _) as [[]|e]; [|eauto].
    cbn in Hspec. destruct Hspec as (Hs & Hv & Hmax).
    destruct Hbad as [?|[?|[?|(m & Hm & Hlt)]]]; try lia.
    specialize (Hmax m Hm). lia.
  - eexists. by vm_compute.
  - eexists. split; by vm_compute.
Qed.

End VerseLocationFacts.

(** ** IntegrityGuard *)

Section IntegrityGuardFacts.
Import IntegrityGuard.

Variable hexdigest : string → text → string.
Variable int_base16 : string → option Z.

(** What hashlib promises of a digest: it is not empty, and it reads as a
    number in base 16. *)
Hypothesis hexdigest_hex : ∀ alg txt,
  hexdigest alg txt ≠ ""%string ∧ is_Some (int_base16 (hexdigest alg txt)).

Lemma checksum_new_inv alg val c :
  TextChecksum.new int_base16 alg val = Ok c →
  c = {| TextChecksum.algorithm := alg; TextChecksum.value := val |} ∧
  alg ∈ TextChecksum.SUPPORTED_ALGORITHMS.
Proof.
  unfold TextChecksum.new, TextChecksum.__post_init__.
  cbn [TextChecksum.algorithm TextChecksum.value].
  destruct (decide (alg ∉ TextChecksum.SUPPORTED_ALGORITHMS)) as [|Hin]; [done|].
  destruct (decide (val = ""%string)); [done|].
  destruct (int_base16 val); [|done].
  intros [= <-]. split; [done|]. by apply dec_stable.
Qed.



End IntegrityGuardFacts.

(** ** VariantMatcher *)

Section EntityMatcherFacts.
Import EntityVariantMatcher.

(** *** The stable sort *)

Lemma insert_reverse_perm {A} (key : A → nat) (x : A) (l : list A) :
  insert_reverse key x l ≡ₚ x :: l.
Proof.
  induction l as [|y l IH]; [reflexivity|]. cbn [insert_reverse].
  destruct (key x <? key y)%nat; [|reflexivity].
  rewrite IH. apply Permutation_swap.
Qed.

Lemma sorted_reverse_perm {A} (key : A → nat) (xs : list A) :
  sorted_reverse key xs ≡ₚ xs.
Proof.
  unfold sorted_reverse. induction xs as [|x xs IH]; [reflexivity|].
  cbn. by rewrite insert_reverse_perm, IH.
Qed.



(** *** One turn of the loop *)

Lemma strip_tashkeel_app t1 t2 :
  _strip_tashkeel (t1 ++ t2) = _strip_tashkeel t1 ++ _strip_tashkeel t2.
Proof. apply filter_app. Qed.

Lemma extract_loop_cons self word prefix prefixes :
  extract_loop self word (prefix :: prefixes) =
  match attempt self word prefix with
  | Some found => Some found
  | None => extract_loop self word prefixes
  end.
Proof.
  cbn [extract_loop]. unfold attempt.
  destruct (startswith word prefix || startswith word (_strip_tashkeel prefix)); [|done].
  by destruct (decide _).
Qed.

Lemma attempt_Some self word prefix a r :
  attempt self word prefix = Some (a, r) →
  (a = prefix ∨ a = _strip_tashkeel prefix ∧ ¬ prefix `prefix_of` word) ∧
  r = drop (length a) word ∧ fits (_base_word self) word a.
Proof.
  unfold attempt, startswith, fits.
  destruct (decide (prefix `prefix_of` word)) as [Hp|Hp].
  - rewrite (bool_decide_eq_true_2 _ Hp). cbn [orb].
    destruct (decide _) as [Hfit|]; [|done]. intros [= <- <-]. auto.
  - rewrite (bool_decide_eq_false_2 _ Hp). cbn [orb].
    destruct (decide (_strip_tashkeel prefix `prefix_of` word)) as [Hc|Hc].
    + rewrite (bool_decide_eq_true_2 _ Hc).
      destruct (decide _) as [Hfit|]; [|done]. intros [= <- <-]. auto.
    + by rewrite (bool_decide_eq_false_2 _ Hc).
Qed.


(** The loop returns what the first prefix that succeeds gives. *)
Lemma extract_loop_Some self word prefixes found :
  extract_loop self word prefixes = Some found →
  ∃ before prefix after,
    prefixes = before ++ prefix :: after ∧
    Forall (λ q, attempt self word q = None) before ∧
    attempt self word prefix = Some found.
Proof.
  induction prefixes as [|p prefixes IH]; [done|].
  rewrite extract_loop_cons.
  destruct (attempt self word p) as [r|] eqn:Hp.
  - intros [= ->]. exists [], p, prefixes. auto.
  - intros Hrest. destruct (IH Hrest) as (before & q & after & -> & Hnone & Hq).
    exists (p :: before), q, after. split; [done|]. split; [by constructor|done].
Qed.


(** *** Facts about the two tables, settled by enumeration *)

Lemma clean_prefix_in_table (p : text) :
  p ∈ ALL_PREFIXES → _strip_tashkeel p ∈ ALL_PREFIXES.
Proof.
  revert p. change (set_Forall (λ p, _strip_tashkeel p ∈ ALL_PREFIXES) ALL_PREFIXES).
  apply (bool_decide_unpack _). by vm_compute.
Qed.

Lemma clitic_forms_table (c : text) : c ∈ clitic_forms ↔ c ∈ ALL_PREFIXES.
Proof.
  assert (clitic_forms = ALL_PREFIXES) as ->; [|done].
  apply (bool_decide_unpack _). by vm_compute.
Qed.




(** No clitic fits: the loop finds nothing, and the word comes back whole
    with an empty prefix. *)
Lemma extract_prefix_no_clitic (iteration : list text) (base word : text) :
  iteration ≡ₚ elements ALL_PREFIXES →
  matches (__init__ base) word = true →
  (∀ c, c ∈ clitic_forms → ¬ fits base word c) →
  extract_prefix iteration (__init__ base) word = Some ([], word).
Proof.
  intros Hperm Hmatch Hnone. unfold extract_prefix. rewrite Hmatch. cbn [negb].
  destruct (extract_loop _ _ _) as [[a r]|] eqn:Hloop; [|done].
  destruct (extract_loop_Some _ _ _ _ Hloop) as (before & p & after & Hsplit & _ & Hp).
  destruct (attempt_Some _ _ _ _ _ Hp) as (Ha & _ & Hafit).
  assert (HpT : p ∈ ALL_PREFIXES).
  { apply elem_of_elements. rewrite <- Hperm, <- (sorted_reverse_perm length), Hsplit.
    apply elem_of_app. right. left. }
  exfalso. apply (Hnone a); [|done]. apply clitic_forms_table.
  destruct Ha as [->|[-> _]]; [done|by apply clean_prefix_in_table].
Qed.


End EntityMatcherFacts.

(** * Worked instances *)

Section Instances.
Local Open Scope Z_scope.

(** The letters alif, lam, lam, ha. *)
Let allah : text := [0x627; 0x644; 0x644; 0x647]%N.

Lemma abjad_value_breakdown_enforced_witness :
  (∃ e, AbjadValue.new AbjadValue.MASHRIQI 66 [([0x627]%N, 1); ([0x644]%N, 30)] = Raise e) ∧
  (∀ a, AbjadValue.new AbjadValue.MASHRIQI 31 [([0x627]%N, 1); ([0x644]%N, 30)] = Ok a →
        AbjadValue.breakdown_sum (AbjadValue.letter_breakdown a) = AbjadValue.value a).
Proof.
  split.
  - apply (proj1 (abjad_value_breakdown_enforced AbjadValue.MASHRIQI 66
                    [([0x627]%N, 1); ([0x644]%N, 30)])).
    vm_compute. discriminate.
  - intros a Ha.
    apply (proj2 (abjad_value_breakdown_enforced AbjadValue.MASHRIQI 31
                    [([0x627]%N, 1); ([0x644]%N, 30)]) a Ha).
Defined.

Lemma verse_location_validated_witness :
  (∃ e, VerseLocation.new 2 287 = Raise e) ∧ (∃ e, VerseLocation.new 115 1 = Raise e).
Proof.
  split.
  - apply (proj1 verse_location_validated 2 287).
    right. right. right. exists 286. split; [reflexivity|lia].
  - apply (proj1 verse_location_validated 115 1). right. left. lia.
Defined.

Lemma digital_root_iterated_digit_sum_witness :
  0 ≤ 786 ∧ AbjadCalculator.digital_root 786 = DigitSum.iterated_digit_sum 786.
Proof.
  split; [lia|]. apply (proj1 (digital_root_iterated_digit_sum 786 ltac:(lia))).
Defined.



End Instances.

(** * Further properties *)

(** A property of code points that holds on the first 2048 by evaluation
    and beyond them by argument holds of all. *)
Lemma code_point_check (Q : N → Prop) `{!∀ c, Decision (Q c)} :
  Forall Q (code_points_below 2048) →
  (∀ c, (2048 ≤ c)%N → Q c) → ∀ c, Q c.
Proof.
  intros Hnear Hfar c.
  destruct (decide (c < 2048)%N) as [Hc|Hc].
  - rewrite Forall_forall in Hnear. apply Hnear.
    by apply (elem_of_code_points_below c 2048).
  - apply Hfar. lia.
Qed.

(** Settle a goal about the code point [c]: the first 2048 by evaluation,
    leaving the case of a code point beyond them. *)
Ltac by_code_point c :=
  pattern c; apply code_point_check;
  [ apply _ | apply (bool_decide_unpack _); by vm_compute | clear c; intros c ? ].

Lemma not_elem_of_str_replace_nil (t : text) (old : N) : old ∉ str_replace t old [].
Proof.
  unfold str_replace. induction t as [|c t IH]; cbn; [apply not_elem_of_nil|].
  destruct (N.eqb_spec c old) as [->|Hne]; cbn; [done|].
  apply not_elem_of_cons. auto.
Qed.

(** ** TextNormalizer, continued *)

Section NormalizerMore.
Import Normalizer.

Lemma normalize_nil level : normalize [] level = [].
Proof. by destruct level. Qed.

Lemma normalize_char_length (c : N) level : length (normalize [c] level) ≤ 1.
Proof.
  destruct level; by_code_point c; by rewrite normalize_far.
Qed.

(** X1. No level of normalization makes a text longer. *)
Theorem normalize_never_longer (t : text) (level : NormalizationLevel) :
  length (normalize t level) ≤ length t.
Proof.
  induction t as [|c t IH]; [by rewrite normalize_nil|].
  change (c :: t) with ([c] ++ t).
  rewrite normalize_app, length_app. cbn [length app].
  pose proof (normalize_char_length c level). lia.
Qed.

(** Normalizing a concatenation is concatenating the normalizations:
    every level works one code point at a time, with no context. *)
Lemma normalize_concat (t1 t2 : text) (level : NormalizationLevel) :
  normalize (t1 ++ t2) level = normalize t1 level ++ normalize t2 level.
Proof. apply normalize_app. Qed.

Lemma normalize_for_search_app t1 t2 :
  normalize_for_search (t1 ++ t2) = normalize_for_search t1 ++ normalize_for_search t2.
Proof. unfold normalize_for_search. by rewrite normalize_app, str_replace_app. Qed.

Lemma normalize_for_search_char (c : N) :
  normalize_for_search (normalize_for_search [c]) = normalize_for_search [c].
Proof.
  by_code_point c. unfold normalize_for_search.
  rewrite normalize_far by done. rewrite str_replace_other by lia.
  rewrite normalize_far by done. by rewrite str_replace_other by lia.
Qed.

(** X2. The search form of a text holds no space, and taking the search
    form of a search form changes nothing. *)
Theorem normalize_for_search_stable (t : text) :
  (0x20%N ∉ normalize_for_search t) ∧
  normalize_for_search (normalize_for_search t) = normalize_for_search t.
Proof.
  split; [apply not_elem_of_str_replace_nil|].
  induction t as [|c t IH]; [done|].
  change (c :: t) with ([c] ++ t).
  rewrite (normalize_for_search_app [c] t), normalize_for_search_app, IH.
  by rewrite normalize_for_search_char.
Qed.

Lemma normalize_twice (t : text) (level : NormalizationLevel) :
  normalize (normalize t level) level = normalize t level.
Proof.
  induction t as [|c t IH]; [by rewrite !normalize_nil|].
  change (c :: t) with ([c] ++ t).
  by rewrite (normalize_app [c] t), normalize_app, IH, normalize_char_idempotent.
Qed.

(** Comparison after normalization is an equivalence on texts, and it
    puts every text together with its own normalized form. *)
Lemma compare_normalized_equivalence (level : NormalizationLevel) :
  (∀ t, compare_normalized t t level = true) ∧
  (∀ t1 t2, compare_normalized t1 t2 level = compare_normalized t2 t1 level) ∧
  (∀ t1 t2 t3, compare_normalized t1 t2 level = true →
               compare_normalized t2 t3 level = true →
               compare_normalized t1 t3 level = true) ∧
  (∀ t, compare_normalized (normalize t level) t level = true).
Proof.
  unfold compare_normalized. repeat split.
  - intros t. by apply bool_decide_eq_true_2.
  - intros t1 t2. apply bool_decide_ext. split; congruence.
  - intros t1 t2 t3 H12 H23.
    apply bool_decide_eq_true_1 in H12. apply bool_decide_eq_true_1 in H23.
    apply bool_decide_eq_true_2. congruence.
  - intros t. apply bool_decide_eq_true_2. apply normalize_twice.
Qed.

Lemma not_elem_of_bounded (l : list N) (bound c : N) :
  Forall (λ x, (x < bound)%N) l → (bound ≤ c)%N → c ∉ l.
Proof.
  intros Hall Hc Hin. rewrite Forall_forall in Hall. specialize (Hall _ Hin). lia.
Qed.

Lemma far_is_clean (c : N) : (2048 ≤ c)%N → ya_unified_clean c ∧ full_clean c.
Proof.
  intros Hc. unfold ya_unified_clean, full_clean, TATWEEL.
  assert (Hset : ∀ l : list N, Forall (λ x, (x < 2048)%N) l →
                               c ∉ (list_to_set l : gset N)).
  { intros l Hl. by apply (not_elem_of_table l 2048). }
  assert (Hlist : ∀ l : list N, Forall (λ x, (x < 2048)%N) l → c ∉ l).
  { intros l Hl. by apply (not_elem_of_bounded l 2048). }
  repeat split; try lia.
  - apply Hset. apply (bool_decide_unpack _). by vm_compute.
  - apply Hlist. apply (bool_decide_unpack _). by vm_compute.
  - apply Hset. apply (bool_decide_unpack _). by vm_compute.
  - apply Hset. apply (bool_decide_unpack _). by vm_compute.
  - apply Hlist. apply (bool_decide_unpack _). by vm_compute.
Qed.

Lemma normalize_char_clean (c : N) :
  Forall ya_unified_clean (normalize [c] YA_UNIFIED) ∧
  Forall full_clean (normalize [c] FULL).
Proof.
  by_code_point c. rewrite !normalize_far by done.
  destruct (far_is_clean c) as [? ?]; [done|].
  split; (constructor; [done|constructor]).
Qed.

(** X3. A text normalized at YA_UNIFIED holds no diacritic of the table
    and no Hamza, Alif or Ya variant that the three maps replace; a text
    normalized at FULL holds no tatweel, small letter or pause sign and no
    Alif variant. *)
Theorem normalize_output_alphabet (t : text) :
  Forall ya_unified_clean (normalize t YA_UNIFIED) ∧
  Forall full_clean (normalize t FULL).
Proof.
  induction t as [|c t [IHy IHf]]; [split; rewrite normalize_nil; constructor|].
  change (c :: t) with ([c] ++ t). rewrite !normalize_app.
  destruct (normalize_char_clean c) as [Hy Hf].
  split; apply Forall_app; done.
Qed.

End NormalizerMore.

(** ** LetterCounter, continued *)

Section LetterCounterMore.
Import LetterCounter.
Local Open Scope Z_scope.

Lemma count_step_counted (w k : bool) (count : Z) (char : N) :
  count_step w k count char = count + (if decide (counted w k char) then 1 else 0).
Proof.
  unfold count_step, counted.
  destruct (decide (char ∈ ARABIC_LETTERS)) as [Hin|Hout].
  { by rewrite decide_True by auto. }
  destruct (decide (char = ALIF_WASLA)) as [->|Hw].
  { rewrite bool_decide_eq_true_2 by done.
    rewrite (bool_decide_eq_false_2 (ALIF_WASLA = ALIF_KHANJARIYYA)) by done.
    destruct w, k; cbn [andb];
      first [ rewrite decide_True by tauto; reflexivity
            | rewrite decide_False by (intros [?|[[? ?]|[? ?]]]; done); lia ]. }
  rewrite (bool_decide_eq_false_2 (char = ALIF_WASLA)) by done.
  destruct (decide (char = ALIF_KHANJARIYYA)) as [->|Hk].
  { rewrite bool_decide_eq_true_2 by done.
    destruct w, k; cbn [andb];
      first [ rewrite decide_True by tauto; reflexivity
            | rewrite decide_False by (intros [?|[[? ?]|[? ?]]]; done); lia ]. }
  rewrite bool_decide_eq_false_2 by done. rewrite !andb_false_r.
  rewrite decide_False by (intros [?|[[? ?]|[? ?]]]; done). lia.
Qed.

(** The counting loop counts the characters it takes in. *)
Lemma count_loop_filter (w k : bool) (t : text) (count : Z) :
  foldl (count_step w k) count t =
  count + Z.of_nat (length (filter (counted w k) t)).
Proof.
  revert count. induction t as [|char t IH]; intros count; cbn [foldl].
  { cbn. lia. }
  rewrite IH, count_step_counted, filter_cons.
  destruct (decide (counted w k char)); cbn [length]; lia.
Qed.

Lemma count_letters_filter (t : text) (m : LetterCountMethod) (ow ok : option bool) :
  count_letters t m ow ok =
  Z.of_nat (length (filter (counted (_get_counting_rules m ow ok).1
                                    (_get_counting_rules m ow ok).2) t)).
Proof.
  unfold count_letters. destruct (_get_counting_rules m ow ok) as [w k].
  by rewrite count_loop_filter.
Qed.

(** X4. The count of a concatenation is the sum of the counts, and a
    count lies between 0 and the length of the text. *)
Theorem count_letters_additive (t1 t2 : text) (m : LetterCountMethod)
    (ow ok : option bool) :
  count_letters (t1 ++ t2) m ow ok = count_letters t1 m ow ok + count_letters t2 m ow ok ∧
  0 ≤ count_letters t1 m ow ok ≤ Z.of_nat (length t1).
Proof.
  rewrite !count_letters_filter, filter_app, length_app.
  split; [lia|].
  pose proof (length_filter (counted (_get_counting_rules m ow ok).1
                                     (_get_counting_rules m ow ok).2) t1). lia.
Qed.

Lemma counted_is_letter (w k : bool) (char : N) :
  counted w k char → char ∈ ARABIC_LETTERS ∨ char ∈ COUNTABLE_SPECIAL.
Proof.
  rewrite elem_of_COUNTABLE_SPECIAL. unfold counted. tauto.
Qed.

Lemma counted_all (char : N) :
  counted true true char ↔ char ∈ ARABIC_LETTERS ∨ char ∈ COUNTABLE_SPECIAL.
Proof.
  rewrite elem_of_COUNTABLE_SPECIAL. unfold counted. tauto.
Qed.

(** X5. Keeping only the letters of a text changes no count; the number
    of letters kept is the count with both special glyphs included, and
    every character kept is one that [is_arabic_letter] accepts. *)
Theorem extract_letters_counts (t : text) :
  (∀ m ow ok, count_letters (extract_letters t) m ow ok = count_letters t m ow ok) ∧
  Z.of_nat (length (extract_letters t)) = count_letters t UTHMANI_FULL None None ∧
  Forall (λ char, is_arabic_letter char = true) (extract_letters t).
Proof.
  unfold extract_letters. split; [|split].
  - intros m ow ok. rewrite !count_letters_filter, list_filter_filter.
    f_equal. f_equal. apply list_filter_iff. intros char. split; [tauto|].
    intros Hc. split; [done|]. by eapply counted_is_letter.
  - rewrite count_letters_filter.
    destruct get_counting_rules_defaults as (_ & _ & ->). cbn [fst snd].
    f_equal. f_equal. apply list_filter_iff. intros char. by rewrite counted_all.
  - apply Forall_forall. intros char Hin.
    apply list_elem_of_filter in Hin as [Hc _].
    unfold is_arabic_letter. by apply bool_decide_eq_true_2.
Qed.

(** X6. Whatever the method and the overrides, the detailed count
    reports as base letters the count without special glyphs, base letters
    and Alif Wasla together make the traditional count, and the three
    counters together the full Uthmani count; the two flags it reports are
    the resolved rules. *)
Theorem count_letters_detailed_parts (t : text) (m : LetterCountMethod)
    (ow ok : option bool) :
  let d := count_letters_detailed t m ow ok in
  base_letters d = count_letters t NO_WASLA None None ∧
  base_letters d + alif_wasla d = count_letters t TRADITIONAL None None ∧
  base_letters d + alif_wasla d + alif_khanjariyya d =
    count_letters t UTHMANI_FULL None None ∧
  (wasla_included d, khanjariyya_included d) = _get_counting_rules m ow ok.
Proof.
  unfold count_letters_detailed, count_letters.
  destruct get_counting_rules_defaults as (-> & -> & ->).
  destruct (_get_counting_rules m ow ok) as [w k].
  pose proof (detailed_loop_total false false t (0, 0, 0)) as Hff.
  pose proof (detailed_loop_total true false t (0, 0, 0)) as Htf.
  pose proof (detailed_loop_total true true t (0, 0, 0)) as Htt.
  change (resolve_total _ _ (0, 0, 0)) with 0 in Hff, Htf, Htt.
  destruct (foldl detailed_step (0, 0, 0) t) as [[base wasla] khanjariyya].
  unfold resolve_total in Hff, Htf, Htt. cbn.
  rewrite <- Hff, <- Htf, <- Htt. done.
Qed.

Lemma bucket_size_snoc nv k t char :
  bucket_size nv k (t ++ [char]) =
  bucket_size nv k t + (if decide (in_bucket nv k char) then 1 else 0).
Proof.
  unfold bucket_size. rewrite filter_app, length_app, filter_cons, filter_nil.
  destruct (decide (in_bucket nv k char)); cbn [length]; lia.
Qed.

Lemma frequency_step_exact nv freq t char :
  exact_frequency nv freq t →
  exact_frequency nv (frequency_step nv freq char) (t ++ [char]).
Proof.
  intros Hfreq k. rewrite bucket_size_snoc.
  assert (Hpos : 0 ≤ bucket_size nv k t) by (unfold bucket_size; lia).
  unfold frequency_step. fold (bucket nv char).
  destruct (decide (char ∈ ARABIC_LETTERS ∨ char ∈ COUNTABLE_SPECIAL)) as [Hl|Hl].
  - destruct (decide (bucket nv char = k)) as [<-|Hk].
    + rewrite lookup_insert_eq.
      rewrite (decide_True (P := in_bucket nv (bucket nv char) char)) by (by split).
      rewrite Hfreq. rewrite (decide_False (P := _ + 1 = 0)) by lia.
      destruct (decide (bucket_size nv (bucket nv char) t = 0)) as [Hz|Hz];
        cbn [default]; f_equal; lia.
    + rewrite lookup_insert_ne by done.
      rewrite (decide_False (P := in_bucket nv k char)) by (intros [_ ?]; done).
      rewrite Z.add_0_r. apply Hfreq.
  - rewrite (decide_False (P := in_bucket nv k char)) by (intros [? _]; done).
    rewrite Z.add_0_r. apply Hfreq.
Qed.

Lemma frequency_loop_exact nv t freq done_so_far :
  exact_frequency nv freq done_so_far →
  exact_frequency nv (foldl (frequency_step nv) freq t) (done_so_far ++ t).
Proof.
  revert freq done_so_far.
  induction t as [|char t IH]; intros freq p Hfreq; cbn [foldl].
  { by rewrite app_nil_r. }
  rewrite (assoc_L (++) p [char] t : p ++ char :: t = (p ++ [char]) ++ t).
  apply IH. by apply frequency_step_exact.
Qed.

Lemma letter_frequency_exact_aux (t : text) (nv : bool) (k : N) :
  get_letter_frequency t nv !! k =
  if decide (bucket_size nv k t = 0) then None else Some (bucket_size nv k t).
Proof.
  apply (frequency_loop_exact nv t ∅ []).
  intros k'. rewrite lookup_empty. by rewrite decide_True.
Qed.

(** X7. The frequency table is exact: a bucket is present when some
    letter of the text falls in it, and then holds the number of those
    letters; with folded variants the bucket of a letter is its base form,
    without folding it is the letter itself. *)
Theorem letter_frequency_exact (t : text) (normalize_variants : bool) (k : N) :
  get_letter_frequency t normalize_variants !! k =
  if decide (bucket_size normalize_variants k t = 0) then None
  else Some (bucket_size normalize_variants k t).
Proof.
  apply letter_frequency_exact_aux.
Qed.

Lemma normalize_letter_canonical (char : N) :
  char ∈ ARABIC_LETTERS ∨ char ∈ COUNTABLE_SPECIAL →
  _normalize_letter char ∈ ARABIC_LETTERS ∧
  _normalize_letter (_normalize_letter char) = _normalize_letter char.
Proof.
  by_code_point char. intros [Hin|Hin]; exfalso; revert Hin.
  - apply (not_elem_of_table _ 2048); [|done].
    apply (bool_decide_unpack _). by vm_compute.
  - apply (not_elem_of_table _ 2048); [|done].
    apply (bool_decide_unpack _). by vm_compute.
Qed.

(** X8. With folded variants, every key of the frequency table is a base
    letter that folding leaves alone, and every value is positive: no
    Alif or Ya variant, and neither special glyph, has a bucket of its own. *)
Theorem letter_frequency_keys (t : text) :
  map_Forall (λ k v, k ∈ ARABIC_LETTERS ∧ _normalize_letter k = k ∧ 0 < v)
             (get_letter_frequency t true).
Proof.
  intros k v Hk. rewrite letter_frequency_exact_aux in Hk.
  destruct (decide (bucket_size true k t = 0)) as [|Hne]; [done|].
  injection Hk as <-.
  assert (Hpos : 0 < bucket_size true k t) by (unfold bucket_size in *; lia).
  assert (∃ char, in_bucket true k char) as [char [Hl <-]].
  { unfold bucket_size in Hne.
    destruct (filter (in_bucket true k) t) as [|char rest] eqn:Hf; [done|].
    exists char. assert (Hin : char ∈ filter (in_bucket true k) t) by (rewrite Hf; left).
    by apply list_elem_of_filter in Hin as [? _]. }
  destruct (normalize_letter_canonical char Hl) as [? ?]. by cbn [bucket] in *.
Qed.

(** X9. The letters that [strip_non_letters] of the normalizer keeps are
    the ones the traditional count takes in: the length of what it returns
    is the traditional letter count. *)
Theorem strip_non_letters_length (t : text) :
  Z.of_nat (length (Normalizer.strip_non_letters t)) =
  count_letters t TRADITIONAL None None.
Proof.
  rewrite count_letters_filter.
  destruct get_counting_rules_defaults as (_ & -> & _). cbn [fst snd].
  unfold Normalizer.strip_non_letters. f_equal. f_equal.
  apply list_filter_iff. intros char.
  unfold counted, ARABIC_LETTERS, ALIF_WASLA.
  rewrite !elem_of_list_to_set, elem_of_app, list_elem_of_singleton.
  split.
  - intros [Hin| ->]; [by left|right; by left].
  - intros [Hin|[[_ ->]|[? _]]]; [by left|by right|done].
Qed.

End LetterCounterMore.

(** ** Abjad values, continued *)

Section AbjadMore.
Import AbjadValue AbjadCalculator.
Local Open Scope Z_scope.

Lemma breakdown_sum_from (b : list (text * Z)) (start : Z) :
  foldl (λ acc lv, acc + lv.2) start b = start + breakdown_sum b.
Proof.
  unfold breakdown_sum. revert start.
  induction b as [|lv b IH]; intros start; [cbn; lia|]. cbn [foldl].
  rewrite (IH (start + lv.2)), (IH (0 + lv.2)). lia.
Qed.

Lemma breakdown_sum_app (b1 b2 : list (text * Z)) :
  breakdown_sum (b1 ++ b2) = breakdown_sum b1 + breakdown_sum b2.
Proof.
  unfold breakdown_sum at 1. rewrite foldl_app.
  fold (breakdown_sum b1). apply breakdown_sum_from.
Qed.

Lemma breakdown_sum_cons lv (b : list (text * Z)) :
  breakdown_sum (lv :: b) = lv.2 + breakdown_sum b.
Proof. apply (breakdown_sum_app [lv] b). Qed.

Lemma calculate_step_entry values inc (b : list (text * Z)) (total : Z) (char : N) :
  calculate_step values inc (b, total) char =
  (b ++ option_list (entry values inc char),
   total + breakdown_sum (option_list (entry values inc char))).
Proof.
  unfold calculate_step, entry.
  destruct (bool_decide (char = ALIF_KHANJARIYYA) && inc); [done|].
  destruct (values !! char) as [val|]; cbn; [done|].
  by rewrite app_nil_r, Z.add_0_r.
Qed.

Lemma entries_cons values inc (char : N) (t : text) :
  entries values inc (char :: t) =
  option_list (entry values inc char) ++ entries values inc t.
Proof. unfold entries. cbn. by destruct (entry values inc char). Qed.

Lemma entries_app values inc (t1 t2 : text) :
  entries values inc (t1 ++ t2) = entries values inc t1 ++ entries values inc t2.
Proof.
  induction t1 as [|char t1 IH]; [done|].
  cbn [app]. by rewrite !entries_cons, IH, app_assoc.
Qed.

Lemma calculate_loop values inc (t : text) (b : list (text * Z)) (total : Z) :
  foldl (calculate_step values inc) (b, total) t =
  (b ++ entries values inc t, total + breakdown_sum (entries values inc t)).
Proof.
  revert b total.
  induction t as [|char t IH]; intros b total; cbn [foldl].
  { unfold entries. cbn. by rewrite app_nil_r, Z.add_0_r. }
  rewrite calculate_step_entry, IH, entries_cons, breakdown_sum_app, app_assoc.
  f_equal. lia.
Qed.

Lemma table_values_positive system :
  map_Forall (λ _ val, 0 < val) (values_of system).
Proof.
  destruct system as [[]|]; apply (bool_decide_unpack _); by vm_compute.
Qed.

Lemma entries_nonneg system inc (t : text) :
  0 ≤ breakdown_sum (entries (values_of system) inc t).
Proof.
  induction t as [|char t IH]; [done|].
  rewrite entries_cons, breakdown_sum_app.
  destruct (entry _ inc char) as [e|] eqn:He;
    [|change (breakdown_sum (option_list None)) with 0; lia].
  change (breakdown_sum (option_list (Some e))) with (0 + e.2).
  assert (0 < e.2); [|lia].
  unfold entry in He.
  destruct (bool_decide (char = ALIF_KHANJARIYYA) && inc); [by injection He as <-|].
  destruct (values_of system !! char) as [val|] eqn:Hval; [|done].
  injection He as <-. by apply (table_values_positive system char).
Qed.

Lemma calculate_spec (t : text) (system : option AbjadSystem) (inc : bool) :
  calculate t system inc =
  Ok {| AbjadValue.system := default MASHRIQI system;
        value := breakdown_sum (entries (values_of system) inc t);
        letter_breakdown := entries (values_of system) inc t |}.
Proof.
  unfold calculate. rewrite calculate_loop. cbn [app]. rewrite Z.add_0_l.
  unfold new, __post_init__. cbn [value letter_breakdown].
  pose proof (entries_nonneg system inc t) as Hpos.
  destruct (Z.ltb_spec (breakdown_sum (entries (values_of system) inc t)) 0); [lia|].
  by rewrite Z.eqb_refl.
Qed.

(** X10. [calculate] never raises: it returns the value object whose
    breakdown holds, in order, one entry for each character that has a
    value, and whose total is the sum of those entries, which is never
    negative. *)
Theorem calculate_returns (t : text) (system : option AbjadSystem) (inc : bool) :
  calculate t system inc =
  Ok {| AbjadValue.system := default MASHRIQI system;
        value := breakdown_sum (entries (values_of system) inc t);
        letter_breakdown := entries (values_of system) inc t |} ∧
  0 ≤ breakdown_sum (entries (values_of system) inc t).
Proof.
  split; [apply calculate_spec|apply entries_nonneg].
Qed.

Lemma calculate_simple_returns (t : text) (system : option AbjadSystem) :
  calculate_simple t system = Ok (breakdown_sum (entries (values_of system) true t)).
Proof.
  unfold calculate_simple.
  by rewrite calculate_spec.
Qed.

(** The value of a concatenation is the sum of the values of its
    parts. *)
Lemma calculate_simple_additive (t1 t2 : text) (system : option AbjadSystem) :
  ∃ v1 v2, calculate_simple t1 system = Ok v1 ∧
           calculate_simple t2 system = Ok v2 ∧
           calculate_simple (t1 ++ t2) system = Ok (v1 + v2).
Proof.
  rewrite !calculate_simple_returns. eexists _, _.
  split; [done|]. split; [done|]. by rewrite entries_app, breakdown_sum_app.
Qed.

Lemma entry_get_value system (char : N) :
  breakdown_sum (option_list (entry (values_of system) true char)) =
  default 0 (get_value char system).
Proof.
  unfold entry, get_value. rewrite andb_true_r.
  destruct (bool_decide (char = ALIF_KHANJARIYYA)); [done|].
  by destruct (values_of system !! char).
Qed.

(** X11. The value of a text is the sum, over its characters, of what
    [get_value] gives for each, a character without a value counting for
    nothing. *)
Theorem calculate_simple_sums_get_value (t : text) (system : option AbjadSystem) :
  calculate_simple t system =
  Ok (foldr (λ char acc, default 0 (get_value char system) + acc) 0 t).
Proof.
  rewrite calculate_simple_returns. f_equal.
  induction t as [|char t IH]; [done|].
  rewrite entries_cons, breakdown_sum_app, entry_get_value, IH. done.
Qed.

Lemma table_lookup_far (l : list (N * Z)) (char : N) :
  Forall (λ kv, (kv.1 < 2048)%N) l → (2048 ≤ char)%N →
  (list_to_map l : gmap N Z) !! char = None.
Proof.
  intros Hl Hc. apply not_elem_of_list_to_map_1. intros Hin.
  apply list_elem_of_fmap in Hin as (kv & -> & Hkv).
  rewrite Forall_forall in Hl. specialize (Hl _ Hkv). lia.
Qed.

Lemma values_far system (char : N) :
  (2048 ≤ char)%N → values_of system !! char = None.
Proof.
  intros Hc. destruct system as [[]|];
    (apply table_lookup_far; [apply (bool_decide_unpack _); by vm_compute | done]).
Qed.

Lemma get_value_far system (char : N) :
  (2048 ≤ char)%N → get_value char system = None.
Proof.
  intros Hc. unfold get_value.
  rewrite bool_decide_eq_false_2 by (unfold ALIF_KHANJARIYYA; lia).
  by apply values_far.
Qed.

(** X12. The two systems give the same letters a value, and give a letter
    different values only if it is one of seen, sheen, sad and dad. *)
Theorem systems_differ_on_four_letters (char : N) :
  (is_Some (get_value char (Some MASHRIQI)) ↔ is_Some (get_value char (Some MAGHRIBI))) ∧
  (get_value char (Some MASHRIQI) ≠ get_value char (Some MAGHRIBI) ↔
   char ∈ [0x633; 0x634; 0x635; 0x636]%N).
Proof.
  by_code_point char. rewrite !get_value_far by done.
  split; [done|]. split; [done|].
  rewrite !elem_of_cons, elem_of_nil. lia.
Qed.

(** X13. A character that has a value in either system is a letter for the
    letter counter, Alif Khanjariyya included; the counter has one letter,
    waw with hamza, that no system gives a value. *)
Theorem valued_characters_are_letters (char : N) (system : option AbjadSystem) :
  (is_Some (get_value char system) → LetterCounter.is_arabic_letter char = true) ∧
  (LetterCounter.is_arabic_letter char = true ∧ get_value char system = None ↔
   char = 0x624%N).
Proof.
  destruct system as [[]|]; by_code_point char; rewrite get_value_far by done.
  all: split; [by intros [? ?]|]; split; [|lia].
  all: intros [Hl _]; exfalso; apply bool_decide_eq_true_1 in Hl as [Hin|Hin];
       revert Hin; (apply (not_elem_of_table _ 2048); [|done]);
       apply (bool_decide_unpack _); by vm_compute.
Qed.

(** *** The breakdown as a dict *)

Lemma dict_total_insert_fresh {K} `{Countable K} (d : gmap K Z) (k : K) (v : Z) :
  d !! k = None → dict_total (<[k:=v]> d) = dict_total d + v.
Proof.
  intros Hk. unfold dict_total.
  rewrite map_fold_insert_L; [done| |done]. intros j1 j2 z1 z2 y _ _ _. lia.
Qed.

Lemma dict_total_bump {K} `{Countable K} (d : gmap K Z) (k : K) (x : Z) :
  dict_total (<[k := default 0 (d !! k) + x]> d) = dict_total d + x.
Proof.
  destruct (d !! k) as [v|] eqn:Hk; cbn [default from_option id].
  - assert (Ht : dict_total d = dict_total (delete k d) + v).
    { rewrite <- (insert_delete_id d k v Hk) at 1.
      by rewrite dict_total_insert_fresh by apply lookup_delete_eq. }
    rewrite <- (insert_delete_eq d).
    rewrite dict_total_insert_fresh by apply lookup_delete_eq. lia.
  - by rewrite dict_total_insert_fresh.
Qed.

Lemma filter_none {A} (P : A → Prop) `{!∀ x, Decision (P x)} (l : list A) :
  Forall (λ x, ¬ P x) l → filter P l = [].
Proof.
  induction 1 as [|x l Hx _ IH]; [done|]. by rewrite filter_cons_False.
Qed.

Lemma breakdown_dict_step (d : gmap text Z) (b : list (text * Z)) (lv : text * Z) :
  exact_breakdown_dict d b →
  exact_breakdown_dict (<[lv.1 := default 0 (d !! lv.1) + lv.2]> d) (b ++ [lv]).
Proof.
  intros [Htotal Hlookup]. split.
  { rewrite dict_total_bump, breakdown_sum_app, Htotal.
    change (breakdown_sum [lv]) with (0 + lv.2). lia. }
  intros letter. unfold contributions.
  rewrite fmap_app, filter_app, breakdown_sum_app, filter_cons, filter_nil.
  cbn [fmap list_fmap].
  destruct (decide (lv.1 = letter)) as [<-|Hne].
  - rewrite lookup_insert_eq, decide_True by (apply elem_of_app; right; left).
    rewrite Hlookup. change (breakdown_sum [lv]) with (0 + lv.2).
    destruct (decide (lv.1 ∈ b.*1)) as [Hin|Hout]; cbn [default from_option id]; [f_equal; lia|].
    f_equal. unfold contributions.
    rewrite (filter_none (λ lv', lv'.1 = lv.1) b); [done|].
    apply Forall_forall. intros lv' Hlv' Heq. apply Hout.
    apply list_elem_of_fmap. by exists lv'.
  - rewrite lookup_insert_ne by done. rewrite Hlookup.
    change (breakdown_sum []) with 0. rewrite Z.add_0_r.
    apply decide_ext. rewrite elem_of_app, elem_of_cons, elem_of_nil.
    split; [auto | intros [?|[?|[]]]; [done|congruence]].
Qed.

Lemma breakdown_dict_loop (b : list (text * Z)) (d : gmap text Z) (seen : list (text * Z)) :
  exact_breakdown_dict d seen →
  exact_breakdown_dict
    (foldl (λ result lv, <[lv.1 := default 0 (result !! lv.1) + lv.2]> result) d b)
    (seen ++ b).
Proof.
  revert d seen. induction b as [|lv b IH]; intros d seen Hd; cbn [foldl].
  { by rewrite app_nil_r. }
  rewrite (assoc_L (++) seen [lv] b : seen ++ lv :: b = (seen ++ [lv]) ++ b).
  apply IH. by apply breakdown_dict_step.
Qed.

(** X14. The breakdown dict has a key for each letter of the breakdown and
    for no other string; under a letter it holds the sum of that letter's
    contributions, and its values add up to the sum of the whole
    breakdown. *)
Theorem get_breakdown_dict_exact (self : AbjadValue.t) (letter : text) :
  dict_total (get_breakdown_dict self) = breakdown_sum (letter_breakdown self) ∧
  get_breakdown_dict self !! letter =
    if decide (letter ∈ (letter_breakdown self).*1)
    then Some (breakdown_sum (contributions letter (letter_breakdown self)))
    else None.
Proof.
  destruct (breakdown_dict_loop (letter_breakdown self) ∅ []) as [Htotal Hlookup].
  { split; [done|]. intros k. rewrite lookup_empty. by rewrite decide_False by apply not_elem_of_nil. }
  split; [exact Htotal|apply Hlookup].
Qed.

(** [modulo] raises on a zero divisor and on no other; otherwise the
    remainder it returns differs from the value by a multiple of the
    divisor and lies between 0 and the divisor, on the divisor's side. *)
Lemma modulo_remainder (self : AbjadValue.t) (divisor : Z) :
  (modulo self divisor = Raise () ↔ divisor = 0) ∧
  (divisor ≠ 0 →
   ∃ r q, modulo self divisor = Ok r ∧ value self = q * divisor + r ∧
          (0 < divisor → 0 ≤ r < divisor) ∧ (divisor < 0 → divisor < r ≤ 0)).
Proof.
  unfold modulo. destruct (Z.eqb_spec divisor 0) as [->|Hne].
  { split; [done|]. intros []. done. }
  split; [split; [done|by intros ->]|]. intros _.
  exists (value self mod divisor), (value self / divisor).
  split; [done|]. split.
  { rewrite Z.mul_comm. by apply Z.div_mod. }
  split; intros Hd.
  - by apply Z.mod_pos_bound.
  - by apply Z.mod_neg_bound.
Qed.

(** *** Factorization *)

Lemma product_app (l1 l2 : list Z) : product (l1 ++ l2) = product l1 * product l2.
Proof.
  unfold product. induction l1 as [|x l1 IH]; cbn [app foldr]; [lia|].
  rewrite IH. lia.
Qed.

Lemma product_replicate_pos (k : nat) (d : Z) : 0 < d → 0 < product (replicate k d).
Proof.
  intros Hd. induction k as [|k IH]; cbn; [lia|].
  change (foldr Z.mul 1 (replicate k d)) with (product (replicate k d)). lia.
Qed.

(** The inner loop divides [d] out as often as it divides. *)
Lemma divide_out_spec (fuel : nat) (d value : Z) (factors : list Z) :
  2 ≤ d → 1 ≤ value → (Z.to_nat value ≤ fuel)%nat →
  ∃ rest k, divide_out fuel d value factors = Some (rest, factors ++ replicate k d) ∧
            value = product (replicate k d) * rest ∧
            1 ≤ rest ≤ value ∧ rest mod d ≠ 0.
Proof.
  intros Hd. revert value factors.
  induction fuel as [|fuel IH]; intros value factors Hv Hfuel; [lia|].
  cbn [divide_out]. destruct (Z.eqb_spec (value mod d) 0) as [Hdiv|Hndiv].
  - assert (Hval : value = d * (value / d)) by (apply Z.div_exact; lia).
    assert (Hq : 1 ≤ value / d < value) by nia.
    destruct (IH (value / d) (factors ++ [d])) as (rest & k & Hrun & Hprod & Hrest & Hmod);
      [lia|lia|].
    exists rest, (S k). rewrite Hrun. split.
    { by rewrite <- app_assoc. }
    split; [|split; [lia|done]].
    cbn [replicate]. change (product (d :: replicate k d)) with (d * product (replicate k d)).
    rewrite Hval at 1. rewrite Hprod. lia.
  - exists value, 0%nat. cbn [replicate]. rewrite app_nil_r.
    split; [done|]. split; [cbn; lia|]. split; [lia|done].
Qed.

Lemma sieved_prime (d value : Z) :
  2 ≤ d → sieved d value → 1 < value → value < d * d → prime value.
Proof.
  intros Hd Hs Hv Hsq. apply prime_alt. split; [done|].
  intros j Hj [q Hq].
  destruct (decide (j < d)) as [Hjd|Hjd].
  - apply (Hs j); [lia|]. by exists q.
  - assert (1 < q) by nia.
    assert (q * j < d * j) by nia.
    assert (q < d) by nia.
    apply (Hs q); [lia|]. exists j. lia.
Qed.

Lemma sieved_divisor_prime (d value : Z) :
  sieved d value → 2 ≤ d → (d | value) → prime d.
Proof.
  intros Hs Hd Hdiv. apply prime_alt. split; [lia|].
  intros j Hj Hjd. apply (Hs j); [lia|]. by apply (Z.divide_trans j d).
Qed.

Lemma sieved_ge (d value : Z) : sieved d value → 1 < value → d ≤ value.
Proof.
  intros Hs Hv. destruct (decide (d ≤ value)); [done|].
  exfalso. apply (Hs value); [lia|]. apply Z.divide_refl.
Qed.

Lemma trial_loop_spec (inner_fuel fuel : nat) (d value : Z) (factors : list Z) (n : Z) :
  2 ≤ d → 1 ≤ value ≤ n → (Z.to_nat n ≤ inner_fuel)%nat →
  n + 2 ≤ Z.of_nat fuel + d → d ≤ n + 1 → sieved d value →
  ∃ rest found,
    trial_loop inner_fuel fuel d value factors = Some (rest, factors ++ found) ∧
    product (with_last found rest) = value ∧
    Forall prime (with_last found rest) ∧
    Forall (λ p, d ≤ p) (with_last found rest) ∧
    StronglySorted Z.le (with_last found rest).
Proof.
  revert d value factors.
  induction fuel as [|fuel IH]; intros d value factors Hd Hv Hinner Hfuel Hdn Hs; [lia|].
  cbn [trial_loop]. destruct (Z.leb_spec (d * d) value) as [Hsq|Hsq].
  - destruct (divide_out_spec inner_fuel d value factors)
      as (rest & k & Hrun & Hprod & Hrest & Hmod); [lia|lia|lia|].
    rewrite Hrun.
    assert (Hs' : sieved (d + 1) rest).
    { intros j Hj Hjr. destruct (decide (j = d)) as [->|Hne].
      - apply Hmod. apply Z.mod_divide; [lia|done].
      - apply (Hs j); [lia|]. rewrite Hprod. by apply Z.divide_mul_r. }
    destruct (IH (d + 1) rest (factors ++ replicate k d))
      as (rest' & found & Hrun' & Hprod' & Hprime & Hge & Hsorted);
      [lia|lia|lia|lia|nia|done|].
    exists rest', (replicate k d ++ found). rewrite Hrun', <- app_assoc.
    split; [done|].
    assert (Hlast : with_last (replicate k d ++ found) rest' =
                    replicate k d ++ with_last found rest').
    { unfold with_last. destruct (rest' >? 1); [by rewrite app_assoc|done]. }
    rewrite Hlast. split; [|split; [|split]].
    + rewrite product_app, Hprod'. lia.
    + apply Forall_app. split; [|done].
      destruct k as [|k]; [constructor|].
      apply Forall_replicate. apply (sieved_divisor_prime d value); [done|lia|].
      exists (product (replicate k d) * rest). rewrite Hprod. cbn [replicate].
      change (product (d :: replicate k d)) with (d * product (replicate k d)). lia.
    + apply Forall_app. split; [apply Forall_replicate; lia|].
      eapply Forall_impl; [exact Hge|]. cbn. intros; lia.
    + apply StronglySorted_app_2; [|clear; induction k; cbn; constructor; [done|by apply Forall_replicate]|done].
      intros x1 x2 Hx1 Hx2. apply elem_of_replicate in Hx1 as [-> _].
      rewrite Forall_forall in Hge. specialize (Hge _ Hx2). lia.
  - exists value, []. rewrite app_nil_r. split; [done|].
    unfold with_last. cbn [app].
    destruct (Z.gtb_spec value 1) as [Hbig|Hsmall].
    + split; [cbn; lia|]. split; [|split].
      * constructor; [|constructor]. apply (sieved_prime d); [done|done|lia|lia].
      * constructor; [|constructor]. apply sieved_ge; [done|lia].
      * repeat constructor.
    + split; [cbn; lia|]. split; [constructor|]. split; constructor.
Qed.

(** X15. Given fuel of at least the value, [factorize] returns; for a
    value below 2 it returns the empty list, and otherwise a list of
    primes in ascending order whose product is the value. *)
Theorem factorize_correct (fuel : nat) (value : Z) :
  (Z.to_nat value ≤ fuel)%nat →
  ∃ factors, factorize fuel value = Some factors ∧
             (value < 2 → factors = []) ∧
             (2 ≤ value → product factors = value) ∧
             Forall prime factors ∧ StronglySorted Z.le factors.
Proof.
  intros Hfuel. unfold factorize.
  destruct (Z.ltb_spec value 2) as [Hsmall|Hbig].
  { exists []. split; [done|]. split; [done|]. split; [lia|]. split; constructor. }
  destruct (trial_loop_spec fuel fuel 2 value [] value)
    as (rest & found & Hrun & Hprod & Hprime & _ & Hsorted);
    [lia|lia|lia|lia|lia|intros k Hk; lia|].
  rewrite Hrun. cbn [app]. fold (with_last found rest).
  exists (with_last found rest). split; [done|]. split; [lia|]. done.
Qed.
End AbjadMore.

(** ** VerseLocation, continued *)

Section VerseLocationMore.
Import VerseLocation.
Local Open Scope Z_scope.

Lemma valid_spec (loc : t) :
  valid loc ↔
  ∃ m, MAX_VERSES_PER_SURAH !! surah_number loc = Some m ∧ 1 ≤ verse_number loc ≤ m.
Proof.
  unfold valid. pose proof (verse_location_post_init_spec loc) as Hspec.
  destruct (__post_init__ loc) as [[]|e].
  - split; [intros _|done]. destruct Hspec as (Hs & Hv & Hmax).
    destruct (proj2 (max_verses_domain (surah_number loc)) Hs) as [m Hm].
    exists m. split; [done|]. split; [done|by apply Hmax].
  - split; [done|]. intros (m & Hm & Hv). exfalso. destruct e as [s|v|v s m'].
    + apply Hspec. apply max_verses_domain. by exists m.
    + lia.
    + destruct Hspec as [Hm' Hlt]. rewrite Hm in Hm'. injection Hm' as <-. lia.
Qed.

Lemma new_valid (surah verse : Z) :
  valid {| surah_number := surah; verse_number := verse |} →
  new surah verse = Ok {| surah_number := surah; verse_number := verse |}.
Proof. unfold valid, new. by intros ->. Qed.

(** X16. The constructor accepts a pair exactly when the surah is in the
    table and the verse lies between 1 and the maximum of that surah, and
    then returns the location with those two numbers. *)
Theorem verse_location_accepted (surah verse : Z) :
  (∃ loc, new surah verse = Ok loc) ↔
  ∃ m, MAX_VERSES_PER_SURAH !! surah = Some m ∧ 1 ≤ verse ≤ m.
Proof.
  rewrite <- (valid_spec {| surah_number := surah; verse_number := verse |}).
  unfold valid, new. destruct (__post_init__ _) as [[]|e].
  - split; [done|eauto].
  - split; [by intros [? ?]|done].
Qed.

Lemma neighbours_stay_valid_aux (loc : t) :
  valid loc →
  next_verse loc =
    Ok (if is_last_verse loc then None
        else Some {| surah_number := surah_number loc;
                     verse_number := verse_number loc + 1 |}) ∧
  previous_verse loc =
    Ok (if is_first_verse loc then None
        else Some {| surah_number := surah_number loc;
                     verse_number := verse_number loc - 1 |}) ∧
  (is_last_verse loc = false →
   valid {| surah_number := surah_number loc; verse_number := verse_number loc + 1 |}) ∧
  (is_first_verse loc = false →
   valid {| surah_number := surah_number loc; verse_number := verse_number loc - 1 |}).
Proof.
  intros Hvalid. destruct (proj1 (valid_spec loc) Hvalid) as (m & Hm & Hv).
  assert (Hnext : is_last_verse loc = false →
    valid {| surah_number := surah_number loc; verse_number := verse_number loc + 1 |}).
  { unfold is_last_verse. rewrite Hm. cbn [default from_option id].
    intros Hlast%Z.eqb_neq. apply valid_spec. exists m. cbn. split; [done|lia]. }
  assert (Hprev : is_first_verse loc = false →
    valid {| surah_number := surah_number loc; verse_number := verse_number loc - 1 |}).
  { unfold is_first_verse, MIN_VERSE. intros Hfirst%Z.eqb_neq.
    apply valid_spec. exists m. cbn. split; [done|lia]. }
  split; [|split; [|split; done]].
  - unfold next_verse. destruct (is_last_verse loc) eqn:Hlast.
    + unfold is_last_verse in Hlast. apply Z.eqb_eq in Hlast. rewrite <- Hlast.
      by rewrite (proj2 (Z.geb_le _ _)) by lia.
    + specialize (Hnext eq_refl).
      unfold is_last_verse in Hlast. rewrite Hm in *. cbn [default from_option id] in *.
      apply Z.eqb_neq in Hlast.
      destruct (Z.geb_spec (verse_number loc) m); [lia|].
      by rewrite new_valid.
  - unfold previous_verse. destruct (is_first_verse loc) eqn:Hfirst.
    + unfold is_first_verse in Hfirst. apply Z.eqb_eq in Hfirst. rewrite Hfirst.
      by rewrite Z.leb_refl.
    + specialize (Hprev eq_refl).
      unfold is_first_verse, MIN_VERSE in *. apply Z.eqb_neq in Hfirst.
      destruct (Z.leb_spec (verse_number loc) 1); [lia|].
      by rewrite new_valid.
Qed.


(** X17. On a valid location [next_verse] and [previous_verse] never
    raise: at the last verse of a surah the first gives nothing, at verse 1
    the second gives nothing, and otherwise each gives the valid location
    one verse further in the same surah. *)
Theorem neighbours_stay_valid (loc : t) :
  valid loc →
  next_verse loc =
    Ok (if is_last_verse loc then None
        else Some {| surah_number := surah_number loc;
                     verse_number := verse_number loc + 1 |}) ∧
  previous_verse loc =
    Ok (if is_first_verse loc then None
        else Some {| surah_number := surah_number loc;
                     verse_number := verse_number loc - 1 |}) ∧
  (is_last_verse loc = false →
   valid {| surah_number := surah_number loc; verse_number := verse_number loc + 1 |}) ∧
  (is_first_verse loc = false →
   valid {| surah_number := surah_number loc; verse_number := verse_number loc - 1 |}).
Proof. apply neighbours_stay_valid_aux. Qed.

(** X18. Stepping back from where [next_verse] leads gives the location
    one started from, and stepping forward from where [previous_verse]
    leads does too. *)
Theorem neighbours_round_trip (loc loc' : t) :
  valid loc →
  (next_verse loc = Ok (Some loc') → previous_verse loc' = Ok (Some loc)) ∧
  (previous_verse loc = Ok (Some loc') → next_verse loc' = Ok (Some loc)).
Proof.
  intros Hvalid.
  destruct (neighbours_stay_valid_aux loc Hvalid) as (Hn & Hp & Hnv & Hpv).
  destruct (proj1 (valid_spec loc) Hvalid) as (m & Hm & Hv).
  split.
  - rewrite Hn. destruct (is_last_verse loc) eqn:Hlast; [done|].
    intros [= <-]. destruct (neighbours_stay_valid_aux _ (Hnv eq_refl)) as (_ & -> & _).
    unfold is_first_verse, MIN_VERSE. cbn [verse_number surah_number].
    rewrite (proj2 (Z.eqb_neq _ _)) by lia.
    destruct loc as [s v]. cbn. do 3 f_equal. lia.
  - rewrite Hp. destruct (is_first_verse loc) eqn:Hfirst; [done|].
    intros [= <-]. destruct (neighbours_stay_valid_aux _ (Hpv eq_refl)) as (-> & _).
    unfold is_last_verse. cbn [verse_number surah_number]. rewrite Hm.
    cbn [default from_option id]. rewrite (proj2 (Z.eqb_neq _ _)) by lia.
    destruct loc as [s v]. cbn. do 3 f_equal. lia.
Qed.

(** X19. [__lt__] is a strict total order on locations, surah first and
    verse second, and [__le__] adds equality to it. *)
Theorem verse_location_order (a b c : t) :
  __lt__ a a = false ∧
  (__lt__ a b = true → __lt__ b c = true → __lt__ a c = true) ∧
  (__lt__ a b = true ∨ a = b ∨ __lt__ b a = true) ∧
  (__lt__ a b = true ↔
   surah_number a < surah_number b ∨
   surah_number a = surah_number b ∧ verse_number a < verse_number b) ∧
  (__le__ a b = true ↔ __lt__ a b = true ∨ a = b) ∧
  (__le__ a b = negb (__lt__ b a)).
Proof.
  assert (Hlt : ∀ x y, __lt__ x y = true ↔
    surah_number x < surah_number y ∨
    surah_number x = surah_number y ∧ verse_number x < verse_number y).
  { intros x y. unfold __lt__.
    destruct (Z.eqb_spec (surah_number x) (surah_number y)) as [Heq|Hne]; cbn [negb].
    - rewrite Z.ltb_lt. lia.
    - rewrite Z.ltb_lt. lia. }
  assert (Heq : ∀ x y : t, x = y ↔
    surah_number x = surah_number y ∧ verse_number x = verse_number y).
  { intros [s v] [s' v']. cbn. split; [by intros [= -> ->]|by intros [-> ->]]. }
  assert (Hle : __le__ a b = true ↔ __lt__ a b = true ∨ a = b).
  { unfold __le__, __eq__. rewrite orb_true_iff, bool_decide_eq_true. done. }
  split; [|split; [|split; [|split; [|split]]]].
  - apply not_true_iff_false. rewrite Hlt. lia.
  - rewrite !Hlt. lia.
  - rewrite !Hlt, Heq. lia.
  - apply Hlt.
  - exact Hle.
  - apply eq_true_iff_eq. rewrite Hle, negb_true_iff, <- not_true_iff_false, !Hlt, Heq. lia.
Qed.

End VerseLocationMore.

(** ** TextChecksum and IntegrityGuard, continued *)

Section ChecksumMore.
Import TextChecksum IntegrityGuard.

Variable hexdigest : string → text → string.
Variable int_base16 : string → option Z.
Hypothesis hexdigest_hex : ∀ alg txt,
  hexdigest alg txt ≠ ""%string ∧ is_Some (int_base16 (hexdigest alg txt)).

(** [matches] is equality of checksums: same algorithm and same
    digest. *)
Lemma matches_is_equality (self other : TextChecksum.t) :
  TextChecksum.matches self other = true ↔ self = other.
Proof.
  unfold TextChecksum.matches, compare_digest.
  destruct self as [a v], other as [a' v']. cbn [algorithm value].
  destruct (decide (a = a')) as [->|Ha].
  - rewrite bool_decide_eq_true_2 by done. cbn [negb].
    rewrite bool_decide_eq_true. split; [by intros ->|by intros [= ->]].
  - rewrite bool_decide_eq_false_2 by done. cbn [negb].
    split; [done|]. intros [= ? ?]. done.
Qed.

Lemma split_colon_once_join (alg val : string) :
  alg ∈ SUPPORTED_ALGORITHMS →
  split_colon_once (alg ++ ":" ++ val) = [alg; val].
Proof.
  unfold SUPPORTED_ALGORITHMS. rewrite elem_of_list_to_set, !elem_of_cons, elem_of_nil.
  intros [->|[->|[->|[->|[->|[]]]]]]; reflexivity.
Qed.

(** X20. A checksum that the constructor accepted is read back from its
    string form: [from_string(str(c)) == c]. *)
Theorem from_string_round_trip (alg val : string) (c : TextChecksum.t) :
  TextChecksum.new int_base16 alg val = Ok c →
  from_string int_base16 (__str__ c) = Ok c.
Proof.
  intros Hnew. destruct (checksum_new_inv int_base16 _ _ _ Hnew) as [-> Hin].
  unfold from_string, __str__. cbn [algorithm value].
  rewrite split_colon_once_join by done. by rewrite Hnew.
Qed.



End ChecksumMore.

(** ** VariantMatcher, continued *)

Section EntityMatcherMore.
#[local] Set Warnings "-clear-no-such-hyp".
Import EntityVariantMatcher.

Lemma strip_tashkeel_idempotent (t : text) :
  _strip_tashkeel (_strip_tashkeel t) = _strip_tashkeel t.
Proof.
  unfold _strip_tashkeel. rewrite list_filter_filter.
  apply list_filter_iff. tauto.
Qed.

(** [matches] looks at a word through its stripped form only. *)
Lemma matches_stripped (self : t) (word : text) :
  matches self word = true ↔
  ∃ form, form ∈ _all_forms self ∧ _strip_tashkeel form = _strip_tashkeel word.
Proof.
  unfold matches. destruct (decide (word ∈ _all_forms self)) as [Hin|Hout].
  - split; [intros _; by exists word|done].
  - rewrite bool_decide_eq_true, elem_of_map. naive_solver.
Qed.

(** X23. [matches] does not see diacritics: a word is accepted exactly
    when the word stripped of its diacritics is, and exactly when some
    generated form has the same stripped form. *)
Theorem matches_ignores_tashkeel (self : t) (word : text) :
  matches self word = matches self (_strip_tashkeel word) ∧
  (matches self word = true ↔
   ∃ form, form ∈ _all_forms self ∧ _strip_tashkeel form = _strip_tashkeel word).
Proof.
  split; [|apply matches_stripped].
  apply eq_true_iff_eq. rewrite !matches_stripped.
  by setoid_rewrite strip_tashkeel_idempotent.
Qed.

Lemma add_forms_fold_right (rest : text) (prefixes : list text) (init : gset text) (form : text) :
  form ∈ foldr (add_forms rest) init prefixes ↔
  form ∈ init ∨ ∃ prefix, prefix ∈ prefixes ∧ form_of rest prefix form.
Proof.
  induction prefixes as [|p prefixes IH]; cbn [foldr].
  { split; [auto|]. intros [?|(? & Hin & _)]; [done|]. by apply elem_of_nil in Hin. }
  unfold add_forms at 1. rewrite !elem_of_union, !elem_of_singleton, IH.
  unfold form_of. setoid_rewrite elem_of_cons. naive_solver.
Qed.

Lemma add_forms_fold_left (rest : text) (prefixes : list text) (init : gset text) (form : text) :
  form ∈ foldl (λ forms prefix, add_forms rest prefix forms) init prefixes ↔
  form ∈ init ∨ ∃ prefix, prefix ∈ prefixes ∧ form_of rest prefix form.
Proof.
  revert init. induction prefixes as [|p prefixes IH]; intros init; cbn [foldl].
  { split; [auto|]. intros [?|(? & Hin & _)]; [done|]. by apply elem_of_nil in Hin. }
  rewrite IH. unfold add_forms at 1. rewrite !elem_of_union, !elem_of_singleton.
  unfold form_of. setoid_rewrite elem_of_cons. naive_solver.
Qed.

Lemma add_forms_set_fold (rest : text) (prefixes init : gset text) (form : text) :
  form ∈ set_fold (add_forms rest) init prefixes ↔
  form ∈ init ∨ ∃ prefix, prefix ∈ prefixes ∧ form_of rest prefix form.
Proof.
  change (set_fold (add_forms rest) init prefixes)
    with (foldr (add_forms rest) init (elements prefixes)).
  rewrite add_forms_fold_right. by setoid_rewrite elem_of_elements.
Qed.

Lemma generate_all_forms_spec (base form : text) :
  form ∈ _generate_all_forms base ↔
  form = base ∨
  (∃ prefix, prefix ∈ ALL_PREFIXES ∧ form_of base prefix form) ∨
  (has_article base = true ∧
   ∃ prefix, prefix ∈ ARTICLE_PREFIXES ∧ form_of (drop 2 base) prefix form).
Proof.
  unfold _generate_all_forms. fold (has_article base). fold ARTICLE_PREFIXES.
  assert (Hbase : form ∈
      set_fold (add_forms base)
        (set_fold (add_forms base) ({[ base ]} : gset text) MATCHABLE_PREFIXES)
        COMBINED_PREFIXES ↔
      form = base ∨ ∃ prefix, prefix ∈ ALL_PREFIXES ∧ form_of base prefix form).
  { rewrite !add_forms_set_fold, elem_of_singleton. unfold ALL_PREFIXES. split.
    - intros [[->|(p & Hp & Hf)]|(p & Hp & Hf)]; [by left|right; exists p..].
      + split; [by apply elem_of_union_l|done].
      + split; [by apply elem_of_union_r|done].
    - intros [->|(p & [Hp|Hp]%elem_of_union & Hf)].
      + by left; left.
      + left. right. by exists p.
      + right. by exists p. }
  destruct (has_article base).
  - rewrite add_forms_fold_left, Hbase. split.
    + intros [[?|?]|?]; [by left|by right; left|by right; right].
    + intros [?|[?|[_ ?]]]; [by left; left|by left; right|by right].
  - rewrite Hbase. split.
    + intros [?|?]; [by left|by right; left].
    + intros [?|[?|[? _]]]; [by left|by right|done].
Qed.

(** X24. The forms generated for a word are the word itself, the word
    behind each clitic of the two sets, with and without the clitic's
    diacritics, and, for a word that begins with the definite article, what
    follows its first two characters behind each of the ten
    clitic-and-article prefixes; nothing else. *)
Theorem all_forms_closure (base form : text) :
  form ∈ get_all_forms (__init__ base) ↔
  form = base ∨
  (∃ prefix, prefix ∈ ALL_PREFIXES ∧ form_of base prefix form) ∨
  (has_article base = true ∧
   ∃ prefix, prefix ∈ ARTICLE_PREFIXES ∧ form_of (drop 2 base) prefix form).
Proof. apply generate_all_forms_spec. Qed.

Lemma fits_matches (base word c : text) :
  c ∈ clitic_forms → fits base word c → matches (__init__ base) word = true.
Proof.
  intros Hc [[r ->] Hfit]. rewrite drop_app_length in Hfit.
  apply matches_stripped. exists (_strip_tashkeel c ++ base). split.
  - apply generate_all_forms_spec. right. left. exists c.
    split; [by apply clitic_forms_table|by left].
  - by rewrite !strip_tashkeel_app, strip_tashkeel_idempotent, Hfit.
Qed.

(** X25. A word that a clitic fits is accepted by [matches], and so is
    every generated form, the canonical word among them. *)
Theorem fitting_words_match (base word : text) :
  (∀ c, c ∈ clitic_forms → fits base word c → matches (__init__ base) word = true) ∧
  (word ∈ get_all_forms (__init__ base) → matches (__init__ base) word = true) ∧
  matches (__init__ base) base = true.
Proof.
  split; [intros c; apply fits_matches|]. split.
  - intros Hin. apply matches_stripped. by exists word.
  - apply matches_stripped. exists base. split; [|done].
    apply generate_all_forms_spec. by left.
Qed.

(** X26. Whatever the iteration order, [extract_prefix] gives nothing
    exactly for the words [matches] rejects, and a pair it gives always
    splits the word: either the empty prefix and the whole word, or a
    clitic that fits and what follows it. *)
Theorem extract_prefix_splits (iteration : list text) (base word : text) :
  iteration ≡ₚ elements ALL_PREFIXES →
  (extract_prefix iteration (__init__ base) word = None ↔
   matches (__init__ base) word = false) ∧
  (∀ a r, extract_prefix iteration (__init__ base) word = Some (a, r) →
          word = a ++ r ∧
          (a = [] ∨ a ∈ clitic_forms ∧ fits base word a)).
Proof.
  intros Hperm. unfold extract_prefix.
  destruct (matches (__init__ base) word) eqn:Hmatch; cbn [negb]; [|done].
  destruct (extract_loop _ _ _) as [[a' r']|] eqn:Hloop.
  - split; [done|]. intros a r [= <- <-].
    destruct (extract_loop_Some _ _ _ _ Hloop) as (before & p & after & Hsplit & _ & Hp).
    destruct (attempt_Some _ _ _ _ _ Hp) as (Ha & -> & Hafit).
    change (_base_word (__init__ base)) with base in Hafit.
    assert (HpT : p ∈ ALL_PREFIXES).
    { apply elem_of_elements. rewrite <- Hperm, <- (sorted_reverse_perm length), Hsplit.
      apply elem_of_app. right. left. }
    split.
    + destruct Hafit as [[r ->] _]. by rewrite drop_app_length.
    + right. split; [|done]. apply clitic_forms_table.
      destruct Ha as [->|[-> _]]; [done|by apply clean_prefix_in_table].
  - split; [done|]. intros a r [= <- <-]. split; [done|by left].
Qed.

End EntityMatcherMore.

(** ** EntityMatcher *)

Section EntityMatcherFacts2.
#[local] Set Warnings "-clear-no-such-hyp".
Import EntityMatcher.

Lemma existsb_accepts (matchers : list EntityVariantMatcher.t) (word : text) :
  existsb (λ matcher, EntityVariantMatcher.matches matcher word) matchers = true ↔
  accepts matchers word.
Proof.
  rewrite existsb_exists. unfold accepts.
  by setoid_rewrite list_elem_of_In.
Qed.

Lemma find_entity_loop_Some items word name :
  find_entity_loop items word = Some name ↔
  ∃ before matchers after,
    items = before ++ (name, matchers) :: after ∧ accepts matchers word ∧
    Forall (λ item, ¬ accepts item.2 word) before.
Proof.
  induction items as [|[n ms] items IH]; cbn [find_entity_loop].
  { split; [done|]. intros (before & ? & ? & Heq & _). by destruct before. }
  destruct (existsb _ ms) eqn:Hms.
  - apply existsb_accepts in Hms. split.
    + intros [= ->]. exists [], ms, items. auto.
    + intros (before & ms' & after & Heq & Hacc & Hbefore).
      destruct before as [|item before]; [by injection Heq as -> _ _|].
      injection Heq as <- _. apply Forall_cons in Hbefore as [Hno _]. by destruct Hno.
  - assert (Hno : ¬ accepts ms word).
    { intros Hacc%existsb_accepts. congruence. }
    rewrite IH. split.
    + intros (before & ms' & after & -> & Hacc & Hbefore).
      exists ((n, ms) :: before), ms', after. split; [done|]. split; [done|].
      by constructor.
    + intros (before & ms' & after & Heq & Hacc & Hbefore).
      destruct before as [|item before].
      * injection Heq as _ -> _. done.
      * injection Heq as _ ->. apply Forall_cons in Hbefore as [_ Hbefore].
        by exists before, ms', after.
Qed.

Lemma find_entity_loop_None items word :
  find_entity_loop items word = None ↔ Forall (λ item, ¬ accepts item.2 word) items.
Proof.
  induction items as [|[n ms] items IH]; cbn [find_entity_loop].
  { split; [constructor|done]. }
  destruct (existsb _ ms) eqn:Hms.
  - apply existsb_accepts in Hms. split; [done|].
    intros [Hno _]%Forall_cons. by destruct Hno.
  - rewrite IH, Forall_cons. cbn [snd].
    assert (Hno : ¬ accepts ms word) by (intros Hacc%existsb_accepts; congruence).
    tauto.
Qed.

(** X27. [find_entity] returns the name of the first entity, in the order
    of the dict, that has a matcher accepting the word, and returns nothing
    exactly when no matcher of any entity accepts it; a name it returns is
    one of [entity_names]. *)
Theorem find_entity_first_match (self : t) (word : text) (name : string) :
  (find_entity self word = Some name ↔
   ∃ before matchers after,
     _matchers self = before ++ (name, matchers) :: after ∧ accepts matchers word ∧
     Forall (λ item, ¬ accepts item.2 word) before) ∧
  (find_entity self word = None ↔
   Forall (λ item, ¬ accepts item.2 word) (_matchers self)) ∧
  (find_entity self word = Some name → name ∈ entity_names self).
Proof.
  unfold find_entity, entity_names. split; [apply find_entity_loop_Some|].
  split; [apply find_entity_loop_None|].
  intros (before & ms & after & -> & _)%find_entity_loop_Some.
  rewrite fmap_app. apply elem_of_app. right. left.
Qed.

Lemma entity_forms_union (matchers : list EntityVariantMatcher.t)
    (init : gset text) (form : text) :
  form ∈ foldl (λ forms matcher, forms ∪ EntityVariantMatcher._all_forms matcher)
               init matchers ↔
  form ∈ init ∨ ∃ matcher, matcher ∈ matchers ∧ form ∈ EntityVariantMatcher._all_forms matcher.
Proof.
  revert init. induction matchers as [|m matchers IH]; intros init; cbn [foldl].
  { split; [auto|]. intros [?|(? & Hin & _)]; [done|]. by apply elem_of_nil in Hin. }
  rewrite IH, elem_of_union. setoid_rewrite elem_of_cons. naive_solver.
Qed.

(** The forms of an entity are the forms of its matchers, and the
    empty set for a name that is no entity; a word among the forms of some
    entity is always found by [find_entity]. *)
Lemma entity_forms_are_found (self : t) (name : string) (word : text) :
  (word ∈ get_entity_forms self name ↔
   ∃ matchers, matchers_of self name = Some matchers ∧
               ∃ matcher, matcher ∈ matchers ∧
                          word ∈ EntityVariantMatcher._all_forms matcher) ∧
  (name ∉ entity_names self → get_entity_forms self name = ∅) ∧
  (word ∈ get_entity_forms self name → is_Some (find_entity self word)).
Proof.
  assert (Hforms : word ∈ get_entity_forms self name ↔
    ∃ matchers, matchers_of self name = Some matchers ∧
                ∃ matcher, matcher ∈ matchers ∧
                           word ∈ EntityVariantMatcher._all_forms matcher).
  { unfold get_entity_forms. destruct (matchers_of self name) as [ms|].
    - rewrite entity_forms_union. split.
      + intros [Hin|Hin]; [by apply not_elem_of_empty in Hin|]. by exists ms.
      + intros (ms' & [= <-] & Hin). by right.
    - split; [intros Hin; by apply not_elem_of_empty in Hin|]. by intros (? & ? & _). }
  split; [exact Hforms|]. split.
  - intros Hname. unfold get_entity_forms, matchers_of.
    destruct (list_find _ _) as [[i item]|] eqn:Hfind; [|done].
    apply list_find_Some in Hfind as (Hi & Heq & _). exfalso. apply Hname.
    unfold entity_names. apply list_elem_of_fmap. exists item.
    split; [done|]. by eapply list_elem_of_lookup_2.
  - intros (ms & Hms & m & Hm & Hw)%Hforms.
    destruct (find_entity self word) as [found|] eqn:Hfind; [by eexists|].
    exfalso. apply find_entity_loop_None in Hfind. rewrite Forall_forall in Hfind.
    unfold matchers_of in Hms.
    destruct (list_find _ _) as [[i item]|] eqn:Hitem; [|done].
    injection Hms as <-. apply list_find_Some in Hitem as (Hi & _ & _).
    apply (Hfind item); [by eapply list_elem_of_lookup_2|].
    exists m. split; [done|]. unfold EntityVariantMatcher.matches. by rewrite decide_True.
Qed.

End EntityMatcherFacts2.

(** ** WordCounter *)

Section WordCounterFacts.
Import WordCounter.

Variable isspace : N → bool.
Local Abbreviation token := (WordCounter.token isspace).

Lemma str_replace_single (t : text) (old new : N) :
  str_replace t old [new] = (λ c, if decide (c = old) then new else c) <$> t.
Proof.
  unfold str_replace. induction t as [|c t IH]; [done|].
  cbn. rewrite <- IH.
  destruct (N.eqb_spec c old), (decide (c = old)); done.
Qed.

Lemma filter_ext_elem {A} (P Q : A → Prop) `{!∀ x, Decision (P x)} `{!∀ x, Decision (Q x)}
    (l : list A) :
  (∀ x, x ∈ l → P x ↔ Q x) → filter P l = filter Q l.
Proof.
  induction l as [|x l IH]; intros Hext; [done|].
  rewrite !filter_cons, IH by (intros y Hy; apply Hext; by right).
  assert (Hx : P x ↔ Q x) by (apply Hext; left).
  destruct (decide (P x)), (decide (Q x)); tauto || done.
Qed.

(** The loop over the marks turns each mark of the list into a space and
    logs the marks that were there. *)
Lemma clean_loop (marks : list N) (t : text) (log : list decision) :
  NoDup marks → 0x20%N ∉ marks →
  foldl clean_step (t, log) marks =
  ((λ c, if decide (c ∈ marks) then 0x20%N else c) <$> t,
   log ++ (Removed <$> filter (λ c, c ∈ t) marks)).
Proof.
  intros Hnodup Hspace. revert t log.
  induction Hnodup as [|mark marks Hfresh Hnodup IH]; intros t log; cbn [foldl].
  { rewrite app_nil_r. f_equal. rewrite <- (list_fmap_id t) at 1.
    apply list_fmap_ext. intros ? c _. by rewrite decide_False by apply not_elem_of_nil. }
  apply not_elem_of_cons in Hspace as [Hne Hspace].
  unfold clean_step at 2. rewrite filter_cons.
  destruct (decide (mark ∈ t)) as [Hin|Hout].
  - rewrite IH by done. rewrite str_replace_single, <- list_fmap_compose.
    rewrite <- app_assoc. cbn [fmap list_fmap app]. f_equal.
    + apply list_fmap_ext. intros ? c _. cbn.
      destruct (decide (c = mark)) as [->|Hc].
      * rewrite decide_False by done. by rewrite decide_True by left.
      * apply decide_ext. rewrite elem_of_cons. tauto.
    + rewrite (filter_ext_elem (λ c, c ∈ _ <$> t) (λ c, c ∈ t) marks); [done|].
      intros c Hc.
      assert (c ≠ mark) by (intros ->; done).
      assert (c ≠ 0x20%N) by (intros ->; done).
      rewrite list_elem_of_fmap. split.
      * intros (c' & Hc' & Hin'). destruct (decide (c' = mark)); [done|by subst].
      * intros Hct. exists c. by rewrite decide_False.
  - rewrite IH by done. f_equal.
    apply list_fmap_ext. intros ? c Hc%list_elem_of_lookup_2.
    apply decide_ext. rewrite elem_of_cons.
    split; [tauto|]. intros [->|?]; [done|done].
Qed.

Lemma clean_marks (iteration : list N) (t : text) :
  iteration ≡ₚ elements NON_WORD_CHARS →
  foldl clean_step (t, []) iteration =
  (marks_to_spaces t, Removed <$> filter (λ c, c ∈ t) iteration).
Proof.
  intros Hperm. rewrite clean_loop.
  - f_equal. unfold marks_to_spaces. apply list_fmap_ext. intros ? c _.
    apply decide_ext. rewrite Hperm. apply elem_of_elements.
  - rewrite Hperm. apply NoDup_elements.
  - rewrite Hperm, elem_of_elements. apply (bool_decide_unpack _). by vm_compute.
Qed.

Lemma split_from_tokens (current s : text) :
  Forall (λ c, isspace c = false) current →
  Forall token (split_from isspace current s).
Proof.
  revert current. induction s as [|c s IH]; intros current Hcur; cbn [split_from].
  { destruct (decide (current = [])); [constructor|]. by repeat constructor. }
  destruct (isspace c) eqn:Hc.
  - destruct (decide (current = [])).
    + apply IH. constructor.
    + constructor; [done|]. apply IH. constructor.
  - apply IH. apply Forall_app. split; [done|]. by repeat constructor.
Qed.

Lemma split_from_chars (current s : text) (w : text) (c : N) :
  w ∈ split_from isspace current s → c ∈ w → c ∈ current ∨ c ∈ s.
Proof.
  revert current. induction s as [|c' s IH]; intros current; cbn [split_from].
  { destruct (decide (current = [])); [by intros ?%elem_of_nil|].
    intros ->%list_elem_of_singleton. auto. }
  destruct (isspace c').
  - destruct (decide (current = [])).
    + intros Hw Hc. destruct (IH [] Hw Hc) as [?%elem_of_nil|?]; [done|].
      right. by right.
    + intros [->|Hw]%elem_of_cons Hc; [by left|].
      destruct (IH [] Hw Hc) as [?%elem_of_nil|?]; [done|]. right. by right.
  - intros Hw Hc. destruct (IH _ Hw Hc) as [[?|?%list_elem_of_singleton]%elem_of_app|?].
    + by left.
    + subst. right. left.
    + right. by right.
Qed.

Lemma lstrip_token (w : text) : Forall (λ c, isspace c = false) w → lstrip isspace w = w.
Proof. destruct 1 as [|c w Hc _]; [done|]. cbn. by rewrite Hc. Qed.

Lemma strip_token (w : text) : Forall (λ c, isspace c = false) w → strip isspace w = w.
Proof.
  intros Hw. unfold strip. rewrite (lstrip_token w Hw).
  rewrite lstrip_token by (by apply Forall_reverse). apply reverse_involutive.
Qed.

Lemma keep_tokens (ws acc : list text) :
  Forall token ws → foldl (keep_word isspace) acc ws = acc ++ ws.
Proof.
  intros Hws. revert acc. induction Hws as [|w ws [Hne Hw] _ IH]; intros acc; cbn [foldl].
  { by rewrite app_nil_r. }
  unfold keep_word at 2. rewrite strip_token by done.
  rewrite decide_False by done. rewrite IH, <- app_assoc. done.
Qed.

Lemma count_words_spec (iteration : list N) (t : text) (inc : bool) (note : string) :
  iteration ≡ₚ elements NON_WORD_CHARS →
  words (count_words isspace iteration t inc note) = split isspace (marks_to_spaces t) ∧
  count (count_words isspace iteration t inc note) =
    Z.of_nat (length (split isspace (marks_to_spaces t))) ∧
  decisions (count_words isspace iteration t inc note) =
    (Removed <$> filter (λ c, c ∈ t) iteration) ++
    [SplitInto (length (split isspace (marks_to_spaces t)))].
Proof.
  intros Hperm. unfold count_words. rewrite (clean_marks iteration t Hperm).
  cbn [words count decisions].
  rewrite keep_tokens by (apply split_from_tokens; constructor). done.
Qed.

(** X28. Whatever order the set of non-word marks is iterated in,
    [count_words] returns the same words, the whitespace-separated tokens
    of the text with every mark turned into a space; the count is their
    number, and the decision log names, in the order of iteration, exactly
    the marks that occur in the text, and then the number of tokens. *)
Theorem count_words_result (iteration : list N) (t : text) (inc : bool) (note : string) :
  iteration ≡ₚ elements NON_WORD_CHARS →
  words (count_words isspace iteration t inc note) = split isspace (marks_to_spaces t) ∧
  count (count_words isspace iteration t inc note) =
    Z.of_nat (length (split isspace (marks_to_spaces t))) ∧
  decisions (count_words isspace iteration t inc note) =
    (Removed <$> filter (λ c, c ∈ t) iteration) ++
    [SplitInto (length (split isspace (marks_to_spaces t)))].
Proof. apply count_words_spec. Qed.

Lemma marks_to_spaces_clean (t : text) (c : N) :
  c ∈ marks_to_spaces t → c ∉ NON_WORD_CHARS.
Proof.
  unfold marks_to_spaces. intros (c' & -> & _)%list_elem_of_fmap.
  destruct (decide (c' ∈ NON_WORD_CHARS)); [|done].
  apply (bool_decide_unpack _). by vm_compute.
Qed.

Lemma split_words_tokens (iteration : list N) (t : text) :
  iteration ≡ₚ elements NON_WORD_CHARS →
  Forall (λ w, token w ∧ Forall (λ c, c ∉ NON_WORD_CHARS) w)
         (split_words isspace iteration t).
Proof.
  intros Hperm. unfold split_words.
  destruct (count_words_spec iteration t true "" Hperm) as (-> & _).
  apply Forall_forall. intros w Hw. split.
  - revert w Hw. apply Forall_forall. apply split_from_tokens. constructor.
  - apply Forall_forall. intros c Hc.
    destruct (split_from_chars _ _ _ _ Hw Hc) as [?%elem_of_nil|Hin]; [done|].
    by apply (marks_to_spaces_clean t).
Qed.

(** Every word that [count_words] returns is non-empty and holds no
    whitespace and no non-word mark. *)
Lemma words_are_tokens (iteration : list N) (t : text) (inc : bool) (note : string) :
  iteration ≡ₚ elements NON_WORD_CHARS →
  Forall (λ w, w ≠ [] ∧ Forall (λ c, isspace c = false ∧ c ∉ NON_WORD_CHARS) w)
         (words (count_words isspace iteration t inc note)).
Proof.
  intros Hperm.
  destruct (count_words_spec iteration t inc note Hperm) as (-> & _).
  pose proof (split_words_tokens iteration t Hperm) as Htok.
  unfold split_words in Htok.
  destruct (count_words_spec iteration t true "" Hperm) as (Hw & _).
  rewrite Hw in Htok. eapply Forall_impl; [exact Htok|].
  intros w [[Hne Hsp] Hmark]. split; [done|].
  rewrite Forall_forall in Hsp, Hmark. apply Forall_forall. auto.
Qed.

Hypothesis isspace_space : isspace 0x20%N = true.

Lemma split_from_run (current w s : text) :
  Forall (λ c, isspace c = false) w →
  split_from isspace current (w ++ s) = split_from isspace (current ++ w) s.
Proof.
  intros Hw. revert current. induction Hw as [|c w Hc _ IH]; intros current.
  { by rewrite app_nil_r. }
  cbn [app split_from]. rewrite Hc, IH, <- app_assoc. done.
Qed.

Lemma split_join (ws : list text) :
  Forall token ws → split isspace (join_space ws) = ws.
Proof.
  unfold split. induction 1 as [|w ws [Hne Hw] Hws IH]; [done|].
  destruct ws as [|w' ws].
  - cbn [join_space]. rewrite <- (app_nil_r w) at 1.
    rewrite split_from_run by done. cbn. by rewrite decide_False.
  - change (join_space (w :: w' :: ws)) with (w ++ [0x20%N] ++ join_space (w' :: ws)).
    rewrite split_from_run by done. cbn [app split_from].
    rewrite isspace_space, decide_False by done. by rewrite IH.
Qed.

Lemma marks_to_spaces_join (ws : list text) :
  Forall (Forall (λ c, c ∉ NON_WORD_CHARS)) ws →
  marks_to_spaces (join_space ws) = join_space ws.
Proof.
  assert (Hid : ∀ w, Forall (λ c, c ∉ NON_WORD_CHARS) w → marks_to_spaces w = w).
  { intros w Hw. unfold marks_to_spaces. rewrite <- (list_fmap_id w) at 2.
    apply list_fmap_ext. intros ? c Hc%list_elem_of_lookup_2.
    rewrite Forall_forall in Hw. by rewrite decide_False by auto. }
  intros Hws. apply Hid. induction Hws as [|w ws Hw Hws IH]; [constructor|].
  destruct ws as [|w' ws]; [done|].
  change (join_space (w :: w' :: ws)) with (w ++ [0x20%N] ++ join_space (w' :: ws)).
  apply Forall_app. split; [done|]. apply Forall_app. split; [|done].
  constructor; [|constructor]. apply (bool_decide_unpack _). by vm_compute.
Qed.

(** X29. Counting is idempotent: the words of a text, joined with single
    spaces and counted again, give the same words. *)
Theorem count_words_idempotent (iteration : list N) (t : text) :
  iteration ≡ₚ elements NON_WORD_CHARS →
  split_words isspace iteration
    (join_space (split_words isspace iteration t)) =
  split_words isspace iteration t.
Proof.
  intros Hperm. pose proof (split_words_tokens iteration t Hperm) as Htok.
  set (ws := split_words isspace iteration t) in *.
  unfold split_words at 1.
  destruct (count_words_spec iteration (join_space ws) true "" Hperm) as (-> & _).
  rewrite marks_to_spaces_join.
  - apply split_join. eapply Forall_impl; [exact Htok|]. by intros w [? _].
  - eapply Forall_impl; [exact Htok|]. by intros w [_ ?].
Qed.

End WordCounterFacts.

(** ** Word positions *)

Section WordPositions.
Import WordCounter.

Lemma right_position_snoc (seen : text) (char : N) (position : text * nat * nat) :
  right_position seen position → right_position (seen ++ [char]) position.
Proof.
  destruct position as [[word start] stop]. intros (Hrange & Hword & Hclean).
  split; [rewrite length_app; cbn; lia|]. split; [|done].
  rewrite drop_app_le by lia. rewrite take_app_le; [done|].
  rewrite length_drop. lia.
Qed.

Lemma positions_step_invariant (seen : text) (char : N) (state : positions_state) :
  positions_invariant seen state →
  positions_invariant (seen ++ [char]) (positions_step state (length seen, char)).
Proof.
  destruct state as [[positions start] word].
  intros (Hpos & Hstart & Hclean & Hcat).
  unfold positions_step. fold (separates char).
  assert (Hfilter : filter (λ c, ¬ separates c) (seen ++ [char]) =
                    filter (λ c, ¬ separates c) seen ++
                    (if decide (separates char) then [] else [char])).
  { rewrite filter_app, filter_cons, filter_nil.
    destruct (decide (separates char)).
    - by rewrite (decide_False (P := ¬ separates char)) by tauto.
    - by rewrite (decide_True (P := ¬ separates char)) by done. }
  assert (Hkeep : Forall (right_position (seen ++ [char])) positions).
  { eapply Forall_impl; [exact Hpos|]. apply right_position_snoc. }
  destruct (decide (separates char)) as [Hsep|Hsep]; rewrite app_nil_r in Hfilter || idtac.
  - destruct (decide (word = [])) as [->|Hword].
    + destruct start as [start|]; [by destruct Hstart|].
      unfold positions_invariant. rewrite Hfilter. done.
    + destruct start as [start|]; [|done]. destruct Hstart as (_ & Hlen & Hdrop).
      unfold positions_invariant. cbn [default from_option id]. rewrite Hfilter.
      split; [|split; [done|split; [constructor|]]].
      * apply Forall_app. split; [done|].
        constructor; [|constructor]. split; [|split; [|done]].
        { rewrite length_app. cbn. destruct word; [done|]. cbn in Hlen. lia. }
        rewrite drop_app_le by lia. rewrite take_app_le by (rewrite length_drop; lia).
        rewrite take_ge by (rewrite length_drop; lia). done.
      * rewrite !fmap_app, concat_app. cbn. by rewrite !app_nil_r.
  - unfold positions_invariant. rewrite Hfilter.
    split; [done|]. split; [|split].
    + destruct start as [start|].
      * destruct Hstart as (Hne & Hlen & Hdrop). split; [by destruct word|].
        split; [rewrite !length_app; cbn; lia|].
        rewrite drop_app_le by lia. by rewrite <- Hdrop.
      * subst word. split; [done|]. split; [rewrite !length_app; cbn; lia|].
        by rewrite drop_app_length.
    + apply Forall_app. split; [done|]. by repeat constructor.
    + by rewrite app_assoc, Hcat.
Qed.

Lemma positions_loop_invariant (t : text) :
  positions_invariant t
    (foldl positions_step ([], None, []) (imap (λ i char, (i, char)) t)).
Proof.
  induction t as [|char t IH] using rev_ind.
  { split; [constructor|]. split; [done|]. split; [constructor|done]. }
  rewrite imap_app, foldl_app. cbn [imap foldl]. rewrite Nat.add_0_r.
  by apply positions_step_invariant.
Qed.

(** X30. Every entry [(word, start, end)] of [get_word_positions] is right
    about the text: [word] is the slice from [start] to [end], it is not
    empty and holds no separator or non-word mark; and the words, put end
    to end, are the text with those characters taken out, so none of its
    other characters is lost or moved. *)
Theorem word_positions_are_slices (t : text) :
  Forall (right_position t) (get_word_positions t) ∧
  concat (get_word_positions t).*1.*1 = filter (λ char, ¬ separates char) t.
Proof.
  unfold get_word_positions. pose proof (positions_loop_invariant t) as Hinv.
  destruct (foldl positions_step _ _) as [[positions start] word].
  destruct Hinv as (Hpos & Hstart & Hclean & Hcat).
  destruct (decide (word = [])) as [->|Hword].
  { split; [done|]. by rewrite app_nil_r in Hcat. }
  destruct start as [start|]; [|done]. destruct Hstart as (_ & Hlen & Hdrop).
  cbn [default from_option id]. split.
  - apply Forall_app. split; [done|]. constructor; [|constructor].
    split; [|split; [|done]].
    + destruct word; [done|]. cbn in Hlen. lia.
    + rewrite take_ge by (rewrite length_drop; lia). done.
  - rewrite !fmap_app, concat_app. cbn. by rewrite !app_nil_r.
Qed.

End WordPositions.

(** * Worked instances, continued *)

Section MoreInstances.
Local Open Scope Z_scope.

(** The letters alif, lam, lam, ha. *)
Let allah : text := [0x627; 0x644; 0x644; 0x647]%N.


Lemma valued_characters_are_letters_witness :
  LetterCounter.is_arabic_letter 0x628%N = true.
Proof.
  apply (proj1 (valued_characters_are_letters 0x628%N None)).
  exists 2. reflexivity.
Defined.

Lemma factorize_correct_witness :
  ∃ factors, AbjadCalculator.factorize 66 66 = Some factors ∧
             AbjadCalculator.product factors = 66.
Proof.
  destruct (factorize_correct 66 66) as (factors & Hrun & _ & Hprod & _); [lia|].
  exists factors. split; [exact Hrun|]. apply Hprod. lia.
Defined.

Lemma neighbours_stay_valid_witness :
  VerseLocation.next_verse
    {| VerseLocation.surah_number := 1; VerseLocation.verse_number := 7 |} = Ok None.
Proof.
  refine (proj1 (neighbours_stay_valid
    {| VerseLocation.surah_number := 1; VerseLocation.verse_number := 7 |} _)).
  reflexivity.
Defined.

Lemma neighbours_round_trip_witness :
  VerseLocation.previous_verse
    {| VerseLocation.surah_number := 2; VerseLocation.verse_number := 6 |} =
  Ok (Some {| VerseLocation.surah_number := 2; VerseLocation.verse_number := 5 |}).
Proof.
  refine (proj1 (neighbours_round_trip
    {| VerseLocation.surah_number := 2; VerseLocation.verse_number := 5 |}
    {| VerseLocation.surah_number := 2; VerseLocation.verse_number := 6 |} _) _).
  - reflexivity.
  - reflexivity.
Defined.

Lemma verse_location_order_witness :
  VerseLocation.__lt__
    {| VerseLocation.surah_number := 1; VerseLocation.verse_number := 7 |}
    {| VerseLocation.surah_number := 3; VerseLocation.verse_number := 1 |} = true.
Proof.
  refine (proj1 (proj2 (verse_location_order
    {| VerseLocation.surah_number := 1; VerseLocation.verse_number := 7 |}
    {| VerseLocation.surah_number := 2; VerseLocation.verse_number := 1 |}
    {| VerseLocation.surah_number := 3; VerseLocation.verse_number := 1 |})) _ _);
    reflexivity.
Defined.

Lemma from_string_round_trip_witness :
  TextChecksum.from_string IntegrityGuard.lenient_int_base16
    (TextChecksum.__str__ {| TextChecksum.algorithm := "sha256"; TextChecksum.value := "ff" |}) =
  Ok {| TextChecksum.algorithm := "sha256"; TextChecksum.value := "ff" |}.
Proof.
  apply (from_string_round_trip IntegrityGuard.lenient_int_base16 "sha256" "ff").
  by vm_compute.
Defined.



Lemma fitting_words_match_witness :
  EntityVariantMatcher.matches (EntityVariantMatcher.__init__ allah)
    ([0x648; 0x64E]%N ++ allah) = true.
Proof.
  apply (proj1 (proj2 (fitting_words_match allah ([0x648; 0x64E]%N ++ allah)))).
  apply (bool_decide_unpack _). by vm_compute.
Defined.

Lemma extract_prefix_splits_witness :
  EntityVariantMatcher.extract_prefix (elements EntityVariantMatcher.ALL_PREFIXES)
    (EntityVariantMatcher.__init__ allah) [0x628]%N = None.
Proof.
  apply (proj1 (extract_prefix_splits (elements EntityVariantMatcher.ALL_PREFIXES)
                  allah [0x628]%N (reflexivity _))).
  by vm_compute.
Defined.

Lemma find_entity_first_match_witness :
  "Allah"%string ∈
  EntityMatcher.entity_names (EntityMatcher.__init__ [("Allah"%string, [allah])]).
Proof.
  apply (proj2 (proj2 (find_entity_first_match
    (EntityMatcher.__init__ [("Allah"%string, [allah])])
    ([0x648]%N ++ allah) "Allah"))).
  by vm_compute.
Defined.

Lemma count_words_result_witness :
  WordCounter.words
    (WordCounter.count_words WordCounter.ascii_isspace
       (elements WordCounter.NON_WORD_CHARS)
       (allah ++ [0x6DD; 0x20]%N ++ allah) true "") =
  WordCounter.split WordCounter.ascii_isspace
    (WordCounter.marks_to_spaces (allah ++ [0x6DD; 0x20]%N ++ allah)).
Proof.
  apply (count_words_result WordCounter.ascii_isspace
           (elements WordCounter.NON_WORD_CHARS)
           (allah ++ [0x6DD; 0x20]%N ++ allah) true "" (reflexivity _)).
Defined.

Lemma count_words_idempotent_witness :
  WordCounter.split_words WordCounter.ascii_isspace
    (elements WordCounter.NON_WORD_CHARS)
    (WordCounter.join_space
       (WordCounter.split_words WordCounter.ascii_isspace
          (elements WordCounter.NON_WORD_CHARS)
          (allah ++ [0x6DD; 0x20]%N ++ allah))) =
  WordCounter.split_words WordCounter.ascii_isspace
    (elements WordCounter.NON_WORD_CHARS)
    (allah ++ [0x6DD; 0x20]%N ++ allah).
Proof.
  apply (count_words_idempotent WordCounter.ascii_isspace (eq_refl : _ = true)
           (elements WordCounter.NON_WORD_CHARS)
           (allah ++ [0x6DD; 0x20]%N ++ allah) (reflexivity _)).
Defined.

End MoreInstances.
